(** * Packet-ID generator (data/packetid/gen_packetid.go)

    A shallow embedding of the extraction and disambiguation logic of
    gen_packetid.go, and the properties of its specification.

    Conventions of the embedding:
    - a Go [string] is a byte sequence: [string] of the Standard Library;
    - a Go [map[int32]string] is a [gmap Z string]; the keys are the values
      [mustAtoi] returns, which lie in the int32 range, and the code does no
      arithmetic on them;
    - Go leaves the order in which [range] visits a map unspecified, so every
      [range] over a map takes the visiting order as an argument: a list that
      holds each entry of the map once ([range_order]);
    - a function that can return an error or panic returns an [outcome]. *)

From Stdlib Require Import ZArith String Ascii List Lia.
From stdpp Require Import base option list strings gmap fin_maps.

Local Open Scope string_scope.
Local Open Scope Z_scope.
Local Open Scope list_scope.

Set Warnings "-register-all,-clear-no-such-hyp".

(** ** The disambiguator *)

Module Disambiguator.

(** type duplexMappings struct { Clientbound, Serverbound map[int32]string }
    The program builds the two maps of a value separately (unpackMapping), so
    the two fields never name the same map. *)
Record duplexMappings : Type := mkDuplex {
  Clientbound : gmap Z string;
  Serverbound : gmap Z string
}.

(** An order in which [range m] may visit the map [m]: every entry once. *)
Definition range_order (m : gmap Z string) (l : list (Z * string)) : Prop :=
  l ≡ₚ map_to_list m.

(** First loop of EnsureUniqueNames:
      clientBounds := make(map[string]int32)
      for sk, sv := range m.Clientbound { clientBounds[sv] = sk }        *)
Definition reverse_index (visit : list (Z * string)) : gmap string Z :=
  foldl (fun acc e => <[e.2 := e.1]> acc) ∅ visit.

(** Body of the second loop, for the serverbound entry [e = (sk, sv)]:
      if ck, ok := clientBounds[sv]; ok {
        m.Clientbound[ck] = sv + "Clientbound"
        m.Serverbound[sk] = sv + "Serverbound"
      }                                                                 *)
Definition rename_step (clientBounds : gmap string Z)
    (m : duplexMappings) (e : Z * string) : duplexMappings :=
  match clientBounds !! e.2 with
  | Some ck =>
      {| Clientbound := <[ck := e.2 +:+ "Clientbound"]> (Clientbound m);
         Serverbound := <[e.1 := e.2 +:+ "Serverbound"]> (Serverbound m) |}
  | None => m
  end.

(** func (m *duplexMappings) EnsureUniqueNames(), with the visiting orders
    [cvisit] of [range m.Clientbound] and [svisit] of [range m.Serverbound].
    The second loop assigns only to the key it is visiting, so the pairs it
    sees are those of the table on entry. *)
Definition EnsureUniqueNames (cvisit svisit : list (Z * string))
    (m : duplexMappings) : duplexMappings :=
  foldl (rename_step (reverse_index cvisit)) m svisit.

(** The run that visits both tables in the order of [map_to_list]. *)
Definition EnsureUniqueNames_default (m : duplexMappings) : duplexMappings :=
  EnsureUniqueNames (map_to_list (Clientbound m)) (map_to_list (Serverbound m)) m.

(** [m'] is a possible result of one call of EnsureUniqueNames on [m]. *)
Definition runs_to (m m' : duplexMappings) : Prop :=
  exists cvisit svisit,
    range_order (Clientbound m) cvisit /\
    range_order (Serverbound m) svisit /\
    m' = EnsureUniqueNames cvisit svisit m.

(** The name [n] is carried by some entry of the table [t]. *)
Definition has_name (t : gmap Z string) (n : string) : Prop :=
  exists k, t !! k = Some n.

(** A name is shared when both tables of [m] carry it. *)
Definition shared (m : duplexMappings) (n : string) : Prop :=
  has_name (Clientbound m) n /\ has_name (Serverbound m) n.

Definition no_shared_name (m : duplexMappings) : Prop :=
  forall n, ~ shared m n.

(** No name of [m] is a shared name followed by the suffix that the entries
    of the other table receive. *)
Definition suffix_free (m : duplexMappings) : Prop :=
  forall n, shared m n ->
    ~ has_name (Clientbound m) (n +:+ "Serverbound") /\
    ~ has_name (Serverbound m) (n +:+ "Clientbound").

End Disambiguator.

(** ** Mapping-key parsing

    mustAtoi calls strconv.ParseInt(num, 0, 32). The package strconv is part
    of the Go standard library and not of the repository; this module follows
    the algorithm of its ParseUint and ParseInt (Go 1.13 and later: base
    prefixes and underscores when the base is 0). *)

Module Strconv.

(** The error kinds a *strconv.NumError can carry. *)
Inductive NumErr : Type :=
| ErrSyntax
| ErrRange
| ErrBase (base : Z)
| ErrBitSize (bitSize : Z).

Definition byte_of (c : ascii) : Z := Z.of_N (N_of_ascii c).

(** lower(c) = c | ('x' - 'X') *)
Definition lower (c : ascii) : Z := Z.lor (byte_of c) 32.

Definition in_range (lo hi x : Z) : bool := (lo <=? x) && (x <=? hi).

Definition maxUint64 : Z := 2 ^ 64 - 1.
Definition wrap_uint64 (z : Z) : Z := z mod 2 ^ 64.

(** Two's-complement reading of the low [w] bits of [z]. *)
Definition wrap_signed (w : Z) (z : Z) : Z :=
  (z + 2 ^ (w - 1)) mod 2 ^ w - 2 ^ (w - 1).

Definition to_int64 : Z -> Z := wrap_signed 64.
Definition to_int32 : Z -> Z := wrap_signed 32.

(** The digit that the loop of ParseUint reads in the byte [c]:
      case '0' <= c && c <= '9': d = c - '0'
      case 'a' <= lower(c) && lower(c) <= 'z': d = lower(c) - 'a' + 10
      default: a syntax error                                            *)
Definition digit_of (c : ascii) : option Z :=
  if in_range 48 57 (byte_of c) then Some (byte_of c - 48)
  else if in_range 97 122 (lower c) then Some (lower c - 97 + 10)
  else None.

(** The digit loop of ParseUint over the bytes that follow the base prefix.
    [inl (n, underscores)] when the loop ends, [inr (v, err)] when it
    returns from inside. [n] is a uint64. *)
Fixpoint digits (base0 : bool) (base cutoff maxVal : Z) (s : string)
    (n : Z) (underscores : bool) : (Z * bool) + (Z * NumErr) :=
  match s with
  | EmptyString => inl (n, underscores)
  | String c rest =>
      if (byte_of c =? 95) && base0 then
        digits base0 base cutoff maxVal rest n true
      else
        match digit_of c with
        | None => inr (0, ErrSyntax)
        | Some d =>
            if base <=? d then inr (0, ErrSyntax)
            else if cutoff <=? n then inr (maxVal, ErrRange)
            else
              let n := wrap_uint64 (n * base) in
              let n1 := wrap_uint64 (n + d) in
              if (n1 <? n) || (maxVal <? n1) then inr (maxVal, ErrRange)
              else digits base0 base cutoff maxVal rest n1 underscores
        end
  end.

(** What underscoreOK saw last: the start of the number, a digit or base
    prefix, an underscore, or anything else. *)
Inductive seen : Type := SeenStart | SeenDigit | SeenUnderscore | SeenOther.

Definition is_underscore (sw : seen) : bool :=
  match sw with SeenUnderscore => true | _ => false end.

Definition is_digit (sw : seen) : bool :=
  match sw with SeenDigit => true | _ => false end.

Fixpoint underscoreOK_loop (hex : bool) (s : string) (saw : seen) : bool :=
  match s with
  | EmptyString => negb (is_underscore saw)
  | String c rest =>
      if in_range 48 57 (byte_of c) || (hex && in_range 97 102 (lower c)) then
        underscoreOK_loop hex rest SeenDigit
      else if byte_of c =? 95 then
        if is_digit saw then underscoreOK_loop hex rest SeenUnderscore
        else false
      else if is_underscore saw then false
      else underscoreOK_loop hex rest SeenOther
  end.

Definition is_sign (c : ascii) : bool :=
  (byte_of c =? 43) || (byte_of c =? 45).

Definition is_base_letter (c : ascii) : bool :=
  (lower c =? 98) || (lower c =? 111) || (lower c =? 120).

(** underscoreOK(s): underscores only between digits or after a prefix. *)
Definition underscoreOK (s : string) : bool :=
  let s :=
    match s with
    | String c rest => if is_sign c then rest else s
    | EmptyString => s
    end in
  match s with
  | String c0 (String c1 rest) =>
      if (byte_of c0 =? 48) && is_base_letter c1
      then underscoreOK_loop (lower c1 =? 120) rest SeenDigit
      else underscoreOK_loop false s SeenStart
  | _ => underscoreOK_loop false s SeenStart
  end.

(** The base and the digits ParseUint reads from [s] when [base = 0]:
    "0b", "0o" and "0x" (either case) select 2, 8 and 16 when at least one
    more byte follows, another leading "0" selects 8, anything else 10. *)
Definition base_prefix (s : string) : Z * string :=
  match s with
  | String c0 tl =>
      if byte_of c0 =? 48 then
        match tl with
        | String c1 (String c2 rest) =>
            if lower c1 =? 98 then (2, String c2 rest)
            else if lower c1 =? 111 then (8, String c2 rest)
            else if lower c1 =? 120 then (16, String c2 rest)
            else (8, tl)
        | _ => (8, tl)
        end
      else (10, s)
  | EmptyString => (10, s)
  end.

(** Modelled from the spec: strconv.ParseUint belongs to the Go standard
    library, whose source is not in the repository; the spec only says that
    keys are parsed as integers in decimal or hexadecimal form, and the model
    follows the library's documented algorithm. Returns the value and the
    error (None for nil), as the Go function does. IntSize is taken as 64. *)
Definition ParseUint (s : string) (base bitSize : Z) : Z * option NumErr :=
  match s with
  | EmptyString => (0, Some ErrSyntax)
  | _ =>
      let base0 := base =? 0 in
      let '(b, body, base_ok) :=
        if in_range 2 36 base then (base, s, true)
        else if base0 then (fst (base_prefix s), snd (base_prefix s), true)
        else (base, s, false) in
      if negb base_ok then (0, Some (ErrBase base))
      else
        let bits := if bitSize =? 0 then 64 else bitSize in
        if (bits <? 0) || (64 <? bits) then (0, Some (ErrBitSize bitSize))
        else
          let cutoff := maxUint64 / b + 1 in
          let maxVal := wrap_uint64 (Z.shiftl 1 bits) - 1 in
          let maxVal := wrap_uint64 maxVal in
          match digits base0 b cutoff maxVal body 0 false with
          | inr (v, e) => (v, Some e)
          | inl (n, underscores) =>
              if underscores && negb (underscoreOK s) then (0, Some ErrSyntax)
              else (n, None)
          end
  end.

(** Modelled from the spec: strconv.ParseInt, of the Go standard library as
    well: an optional sign, then ParseUint, then the range check against
    2^(bitSize-1). *)
Definition ParseInt (s : string) (base bitSize : Z) : Z * option NumErr :=
  match s with
  | EmptyString => (0, Some ErrSyntax)
  | String c rest =>
      let '(neg, body) :=
        if byte_of c =? 43 then (false, rest)
        else if byte_of c =? 45 then (true, rest)
        else (false, s) in
      let '(un, err) := ParseUint body base bitSize in
      match err with
      | Some ErrRange | None =>
          let bits := if bitSize =? 0 then 64 else bitSize in
          let cutoff := wrap_uint64 (Z.shiftl 1 (bits - 1)) in
          if negb neg && (cutoff <=? un) then (to_int64 (cutoff - 1), Some ErrRange)
          else if neg && (cutoff <? un) then (to_int64 (- to_int64 cutoff), Some ErrRange)
          else
            let n := to_int64 un in
            (if neg then to_int64 (- n) else n, None)
      | Some e => (0, Some e)
      end
  end.

(** The number that the digits [s] denote in [base], read after the digits
    of [acc]; None when a byte of [s] is no digit of the base. *)
Fixpoint numeral (base : Z) (s : string) (acc : Z) : option Z :=
  match s with
  | EmptyString => Some acc
  | String c rest =>
      match digit_of c with
      | Some d => if d <? base then numeral base rest (acc * base + d) else None
      | None => None
      end
  end.

(** The first byte of [s] is one of '1' to '9'. *)
Definition starts_nonzero_digit (s : string) : bool :=
  match s with
  | String c _ => in_range 49 57 (byte_of c)
  | EmptyString => false
  end.

End Strconv.

(** ** Canonical names *)

Module Strcase.

Import Strconv.

Definition is_separator (c : ascii) : bool :=
  (byte_of c =? 95) || (byte_of c =? 32) || (byte_of c =? 45) || (byte_of c =? 46).

Definition upper_byte (c : ascii) : ascii :=
  ascii_of_N (N_of_ascii c - 32).

Fixpoint camel_loop (s : string) (capNext : bool) : string :=
  match s with
  | EmptyString => EmptyString
  | String c rest =>
      let tl := camel_loop rest (is_separator c) in
      if in_range 65 90 (byte_of c) || in_range 48 57 (byte_of c) then String c tl
      else if in_range 97 122 (byte_of c) then
        String (if capNext then upper_byte c else c) tl
      else tl
  end.

(** Modelled from the spec: strcase.ToCamel is a function of the imported
    package github.com/iancoleman/strcase, whose source is not in the
    repository. The spec calls its result the canonical identifier form:
    capitalized camel case of a snake-case or similar name. The model keeps
    letters and digits, drops every other byte, and puts in upper case the
    first letter and each letter that follows '_', ' ', '-' or '.'. *)
Definition ToCamel (s : string) : string := camel_loop s true.

End Strcase.

(** ** The extractor *)

Module Extractor.

Import Disambiguator Strconv Strcase.

(** A decoded JSON value, as encoding/json stores it in an interface{}:
    nil, bool, float64, string, []interface{} or map[string]interface{}.
    The code never reads a number, so [JNumber] carries an integer. The
    entries of an object are listed in the order in which [range] will visit
    them; the keys of a decoded object are distinct. *)
Inductive json : Type :=
| JNull
| JBool (b : bool)
| JNumber (x : Z)
| JString (s : string)
| JArray (elems : list json)
| JObject (fields : list (string * json)).

Abbreviation object := (list (string * json)).

(** The two-result index expression [v, ok := o[k]]. *)
Fixpoint get (k : string) (o : object) : option json :=
  match o with
  | [] => None
  | (k', v) :: rest => if String.eqb k k' then Some v else get k rest
  end.

(** The one-result index expression [o[k]]: nil when the key is absent. *)
Definition index (o : object) (k : string) : json :=
  match get k o with Some v => v | None => JNull end.

(** The errors the program builds with fmt.Errorf:
    - [NotFound k]: "key %q not found";
    - [TypeMismatch k sub]: "key %q was %T, expected a string map";
    - [Labelled l e]: "<l>: %v" around the error [e]. *)
Inductive error : Type :=
| NotFound (k : string)
| TypeMismatch (k : string) (sub : json)
| Labelled (label : string) (e : error).

(** The run-time panics of the program. *)
Inductive panic : Type :=
| FailedAssertion (v : json)
| IndexOutOfRange (i : nat) (len : nat)
| ParsePanic (num : string) (e : NumErr).

(** What a call does: it returns a value, returns an error (with the zero
    value, which the callers drop), or panics. *)
Inductive outcome (A : Type) : Type :=
| Ok (a : A)
| Err (e : error)
| Panic (p : panic).

Arguments Ok {A} a.
Arguments Err {A} e.
Arguments Panic {A} p.

Definition bind {A B : Type} (x : outcome A) (f : A -> outcome B) : outcome B :=
  match x with
  | Ok a => f a
  | Err e => Err e
  | Panic p => Panic p
  end.

Notation "'let*' x := c 'in' k" := (bind c (fun x => k))
  (at level 10, x name, c at level 100, k at level 200).

(** func unnest(input map[string]interface{}, keys ...string) *)
Fixpoint unnest (input : object) (keys : list string) : outcome object :=
  match keys with
  | [] => Ok input
  | k :: rest =>
      match get k input with
      | None => Err (NotFound k)
      | Some (JObject next) => unnest next rest
      | Some sub => Err (TypeMismatch k sub)
      end
  end.

(** The type assertions v.([]interface{}), v.(map[string]interface{}) and
    v.(string), and the index expression l[i] of a slice. *)
Definition as_array (v : json) : outcome (list json) :=
  match v with JArray l => Ok l | _ => Panic (FailedAssertion v) end.

Definition as_object (v : json) : outcome object :=
  match v with JObject o => Ok o | _ => Panic (FailedAssertion v) end.

Definition as_string (v : json) : outcome string :=
  match v with JString s => Ok s | _ => Panic (FailedAssertion v) end.

Definition at_index (l : list json) (i : nat) : outcome json :=
  match l !! i with
  | Some v => Ok v
  | None => Panic (IndexOutOfRange i (length l))
  end.

(** func mustAtoi(num string) int32 *)
Definition mustAtoi (num : string) : outcome Z :=
  match ParseInt num 0 32 with
  | (n, None) => Ok (to_int32 n)
  | (_, Some e) => Panic (ParsePanic num e)
  end.

(** pType := info["packet"].([]interface{})[1].([]interface{})[0]
               .(map[string]interface{})["type"]
    mappings := pType.([]interface{})[1].(map[string]interface{})["mappings"]
               .(map[string]interface{})                                  *)
Definition packet_mappings (info : object) : outcome object :=
  let* packet := as_array (index info "packet") in
  let* fields := at_index packet 1 in
  let* fields := as_array fields in
  let* first := at_index fields 0 in
  let* first := as_object first in
  let* pType := as_array (index first "type") in
  let* switch := at_index pType 1 in
  let* switch := as_object switch in
  as_object (index switch "mappings").

(** for k, v := range mappings { table[mustAtoi(k)] = strcase.ToCamel(v.(string)) }
    The call mustAtoi(k) comes first in the statement, then the assertion
    v.(string) and the call of ToCamel. *)
Fixpoint fill (table : gmap Z string) (mappings : object) : outcome (gmap Z string) :=
  match mappings with
  | [] => Ok table
  | (k, v) :: rest =>
      let* id := mustAtoi k in
      let* name := as_string v in
      fill (<[id := ToCamel name]> table) rest
  end.

(** One direction of unpackMapping: unnest, the path to the mappings, and
    the loop over them. *)
Definition unpackDirection (data : object) (gameState direction : string)
    : outcome (gmap Z string) :=
  let* info := unnest data [gameState; direction; "types"] in
  let* mappings := packet_mappings info in
  fill ∅ mappings.

(** func unpackMapping(data map[string]interface{}, gameState string) *)
Definition unpackMapping (data : object) (gameState : string)
    : outcome duplexMappings :=
  let* clientbound := unpackDirection data gameState "toClient" in
  let* serverbound := unpackDirection data gameState "toServer" in
  Ok {| Clientbound := clientbound; Serverbound := serverbound |}.

(** type protocolIDs struct { Login, Play, Status duplexMappings } *)
Record protocolIDs : Type := mkProtocolIDs {
  Login : duplexMappings;
  Play : duplexMappings;
  Status : duplexMappings
}.

Inductive direction : Type := ToClient | ToServer.

(** The visiting orders of the six [range] loops that the three calls of
    EnsureUniqueNames run, by state and table. *)
Definition visits : Type := string -> direction -> list (Z * string).

Definition disambiguate (visit : visits) (state : string)
    (m : duplexMappings) : duplexMappings :=
  EnsureUniqueNames (visit state ToClient) (visit state ToServer) m.

(** func downloadInfo(), from the decoded document on (lines 151 to 165);
    the download and the JSON decoding that precede, with their two error
    returns, are added by [downloadInfo_whole]. *)
Definition downloadInfo (visit : visits) (data : object) : outcome protocolIDs :=
  match unpackMapping data "login" with
  | Err e => Err (Labelled "login" e)
  | Panic p => Panic p
  | Ok login =>
      let login := disambiguate visit "login" login in
      match unpackMapping data "play" with
      | Err e => Err (Labelled "play" e)
      | Panic p => Panic p
      | Ok play =>
          let play := disambiguate visit "play" play in
          match unpackMapping data "status" with
          | Err e => Err (Labelled "play" e)
          | Panic p => Panic p
          | Ok status =>
              let status := disambiguate visit "status" status in
              Ok {| Login := login; Play := play; Status := status |}
          end
      end
  end.

(** *** The shape of a document, stated on its own *)

(** Following [keys] from [o] through nested objects leads to [o']. *)
Inductive reaches : object -> list string -> object -> Prop :=
| reaches_nil (o : object) : reaches o [] o
| reaches_cons (o : object) (k : string) (next : object)
      (keys : list string) (o' : object) :
    get k o = Some (JObject next) -> reaches next keys o' ->
    reaches o (k :: keys) o'.

Definition is_object (v : json) : bool :=
  match v with JObject _ => true | _ => false end.

(** Walking [keys] from [o] stops at the key [k]: it is absent, which is the
    error [NotFound k], or its value [sub] is not an object, which is the
    error [TypeMismatch k sub]. *)
Definition path_error (o : object) (keys : list string) (e : error) : Prop :=
  exists pre k post o',
    keys = pre ++ k :: post /\ reaches o pre o' /\
    ((get k o' = None /\ e = NotFound k) \/
     (exists sub, get k o' = Some sub /\ is_object sub = false /\
                  e = TypeMismatch k sub)).

(** Below "types" the document has the expected shape, down to the object
    [mappings]: "packet" is a sequence whose element 1 is a sequence, whose
    element 0 is an object, whose "type" is a sequence, whose element 1 is an
    object, whose "mappings" is [mappings]. *)
Definition has_mappings (info mappings : object) : Prop :=
  exists packet fields first pType switch,
    index info "packet" = JArray packet /\
    packet !! 1%nat = Some (JArray fields) /\
    fields !! 0%nat = Some (JObject first) /\
    index first "type" = JArray pType /\
    pType !! 1%nat = Some (JObject switch) /\
    index switch "mappings" = JObject mappings.

(** The key of a mapping entry is an integer literal for ParseInt with base
    0 and 32 bits. *)
Definition parses (num : string) : bool :=
  match ParseInt num 0 32 with
  | (_, None) => true
  | (_, Some _) => false
  end.

Definition is_string (v : json) : bool :=
  match v with JString _ => true | _ => false end.

(** A mapping entry that the loop of unpackMapping can store. *)
Definition entry_ok (e : string * json) : bool := parses e.1 && is_string e.2.

Definition is_panic {A : Type} (x : outcome A) : Prop := exists p, x = Panic p.

(** Below "types" the document lacks the expected shape, or one of the
    mapping entries has a key that is no integer literal or a name that is
    no string. *)
Definition defective (info : object) : Prop :=
  forall mappings, has_mappings info mappings -> forallb entry_ok mappings = false.

(** The document holds the table [t] for the state and direction: the three
    keys lead to an object that has mappings, and the loop stores them all. *)
Definition extracts (data : object) (gameState direction : string)
    (t : gmap Z string) : Prop :=
  exists info mappings,
    reaches data [gameState; direction; "types"] info /\
    has_mappings info mappings /\
    forallb entry_ok mappings = true /\
    fill ∅ mappings = Ok t.

(** The document of one game state whose two packet types map the keys of
    [toClient] and of [toServer] to raw names, in the shape of protocol.json:
    {"toClient": {"types": {"packet": ["container",
       [{"name": "name", "type": ["mapper", {"type": "varint", "mappings": ...}]},
        ...]]}}, "toServer": ...} *)
Definition raw_mappings (l : list (string * string)) : json :=
  JObject (map (fun e => (e.1, JString e.2)) l).

Definition packet_type (l : list (string * string)) : json :=
  JObject [("types", JObject [("packet", JArray [JString "container";
    JArray [JObject [("name", JString "name");
                     ("type", JArray [JString "mapper";
                        JObject [("type", JString "varint");
                                 ("mappings", raw_mappings l)]])]]])])].

Definition state_doc (toClient toServer : list (string * string)) : json :=
  JObject [("toClient", packet_type toClient); ("toServer", packet_type toServer)].

End Extractor.

(** ** Fixtures *)

Module Fixtures.

Import Disambiguator Extractor.

(** The raw pair of the specification's example: one name in both tables. *)
Definition keep_alive_raw : duplexMappings :=
  {| Clientbound := {[5 := "keep_alive"]}; Serverbound := {[7 := "keep_alive"]} |}.

(** The same pair in canonical names, as the extractor builds it. *)
Definition keep_alive_canonical : duplexMappings :=
  {| Clientbound := {[5 := "KeepAlive"]}; Serverbound := {[7 := "KeepAlive"]} |}.

Definition keep_alive_raw_out : duplexMappings :=
  {| Clientbound := {[5 := "keep_aliveClientbound"]};
     Serverbound := {[7 := "keep_aliveServerbound"]} |}.

Definition keep_alive_out : duplexMappings :=
  {| Clientbound := {[5 := "KeepAliveClientbound"]};
     Serverbound := {[7 := "KeepAliveServerbound"]} |}.

(** A clientbound name that is a shared name followed by "Serverbound". *)
Definition clash : duplexMappings :=
  {| Clientbound := {[1 := "KeepAlive"; 2 := "KeepAliveServerbound"]};
     Serverbound := {[3 := "KeepAlive"]} |}.

Definition clash_once : duplexMappings :=
  {| Clientbound := {[1 := "KeepAliveClientbound"; 2 := "KeepAliveServerbound"]};
     Serverbound := {[3 := "KeepAliveServerbound"]} |}.

Definition clash_twice : duplexMappings :=
  {| Clientbound := {[1 := "KeepAliveClientbound";
                      2 := "KeepAliveServerboundClientbound"]};
     Serverbound := {[3 := "KeepAliveServerboundServerbound"]} |}.

(** One name under two clientbound IDs and in the serverbound table. *)
Definition twice_clientbound : duplexMappings :=
  {| Clientbound := {[1 := "Chat"; 2 := "Chat"]}; Serverbound := {[3 := "Chat"]} |}.

(** The document of the specification's example for the state "play". *)
Definition play_fixture : object :=
  [("play", state_doc [("0x00", "spawn_entity")] [("0x00", "chat")])].

Definition play_tables : duplexMappings :=
  {| Clientbound := {[0 := "SpawnEntity"]}; Serverbound := {[0 := "Chat"]} |}.

(** A document whose key "abc" of the clientbound mappings is no integer. *)
Definition bad_key_doc : object :=
  [("play", state_doc [("abc", "spawn_entity")] [("0x00", "chat")])].

(** A document with the three keys that unnest follows, and no "packet". *)
Definition no_packet_doc : object :=
  [("play", JObject [("toClient", JObject [("types", JObject [])]);
                     ("toServer", JObject [("types", JObject [])])])].

(** A document without the key "toClient" in the state "play". *)
Definition no_toClient_doc : object :=
  [("play", JObject [("toServer", packet_type [("0x00", "chat")])])].

(** Well-formed "login" and "play", and a "status" without "toClient". *)
Definition broken_status_doc : object :=
  [("login", state_doc [("0x00", "disconnect")] [("0x00", "login_start")]);
   ("play", state_doc [("0x00", "spawn_entity")] [("0x00", "chat")]);
   ("status", JObject [("toServer", packet_type [("0x00", "ping_start")])])].

End Fixtures.

(** ** Further definitions for the rest of the file *)

Module Coverage.

Import Disambiguator Strconv Strcase Extractor.

(** No two entries of the table carry the same name. *)
Definition distinct_names (t : gmap Z string) : Prop :=
  forall i j n, t !! i = Some n -> t !! j = Some n -> i = j.

(** The mappings object that unpackMapping reads for a state and direction. *)
Definition mappings_of (data : object) (gameState direction : string)
    (mappings : object) : Prop :=
  exists info,
    reaches data [gameState; direction; "types"] info /\
    has_mappings info mappings.

(** The three states that downloadInfo extracts, in its order. *)
Definition states : list string := ["login"; "play"; "status"].

(** The orders that [visit] gives are visiting orders of the tables that
    unpackMapping returns for the three states. *)
Definition valid_visits (visit : visits) (data : object) : Prop :=
  forall state m, state ∈ states -> unpackMapping data state = Ok m ->
    range_order (Clientbound m) (visit state ToClient) /\
    range_order (Serverbound m) (visit state ToServer).

(** The visiting orders of [map_to_list] for the tables of [data]. *)
Definition default_visits (data : object) : visits :=
  fun state dir =>
    match unpackMapping data state with
    | Ok m =>
        map_to_list
          match dir with ToClient => Clientbound m | ToServer => Serverbound m end
    | _ => []
    end.

(** What the first lines of downloadInfo (141 to 149) obtain: an error of
    http.Get, an error of the JSON decoder, or the decoded document. The
    errors of the two libraries are kept as their messages. *)
Inductive response : Type :=
| GetFailed (err : string)
| DecodeFailed (err : string)
| Decoded (data : object).

(** The errors that downloadInfo returns: those of http.Get and of the
    decoder as they are (return nil, err), those of the extraction as
    lines 151 to 165 label them. *)
Inductive download_error : Type :=
| FromGet (err : string)
| FromDecode (err : string)
| FromExtraction (e : error).

Inductive download_result : Type :=
| Downloaded (ids : protocolIDs)
| Failed (e : download_error)
| Panicked (p : panic).

(** func downloadInfo() as a whole (lines 140 to 166), the answer of the
    network and of the decoder being an argument. *)
Definition downloadInfo_whole (visit : visits) (r : response) : download_result :=
  match r with
  | GetFailed err => Failed (FromGet err)
  | DecodeFailed err => Failed (FromDecode err)
  | Decoded data =>
      match downloadInfo visit data with
      | Ok ids => Downloaded ids
      | Err e => Failed (FromExtraction e)
      | Panic p => Panicked p
      end
  end.

(** The table of a state in the result of downloadInfo. *)
Definition state_tables (ids : protocolIDs) : list (string * duplexMappings) :=
  [("login", Login ids); ("play", Play ids); ("status", Status ids)].

(** Clientbound names all distinct, one of them in the serverbound table. *)
Definition two_states : duplexMappings :=
  {| Clientbound := {[0 := "KeepAlive"; 1 := "Chat"]};
     Serverbound := {[0 := "KeepAlive"; 1 := "ClientSettings"]} |}.

Definition two_states_out : duplexMappings :=
  {| Clientbound := {[0 := "KeepAliveClientbound"; 1 := "Chat"]};
     Serverbound := {[0 := "KeepAliveServerbound"; 1 := "ClientSettings"]} |}.

(** A document whose clientbound mappings of "play" spell the ID 0 twice. *)
Definition twice_zero_doc : object :=
  [("play", state_doc [("0", "spawn_entity"); ("0x0", "spawn_mob")]
                      [("0x00", "chat")])].

(** A document with the three states, "keep_alive" in both directions of
    "play", and a top-level key that the program does not read. *)
Definition full_doc : object :=
  [("handshaking", state_doc [] [("0x00", "set_protocol")]);
   ("login", state_doc [("0x00", "disconnect")] [("0x00", "login_start")]);
   ("play", state_doc [("0x1f", "keep_alive")] [("0x0f", "keep_alive")]);
   ("status", state_doc [("0x00", "server_info")] [("0x00", "ping_start")])].

(** The table of each direction in the result of unpackMapping. *)
Definition direction_tables (m : duplexMappings) : list (string * gmap Z string) :=
  [("toClient", Clientbound m); ("toServer", Serverbound m)].

(** [full_doc] without the key that the program does not read. *)
Definition three_states_doc : object := tail full_doc.

(** What downloadInfo returns for [full_doc]. *)
Definition full_ids : protocolIDs :=
  {| Login := {| Clientbound := {[0 := "Disconnect"]};
                 Serverbound := {[0 := "LoginStart"]} |};
     Play := {| Clientbound := {[31 := "KeepAliveClientbound"]};
                Serverbound := {[15 := "KeepAliveServerbound"]} |};
     Status := {| Clientbound := {[0 := "ServerInfo"]};
                  Serverbound := {[0 := "PingStart"]} |} |}.

End Coverage.

(** ** The IDs in the generated file

    The template writes each entry as
      {{$Name}} = {{$ID | printf "%#x"}}
    The verb %#x is formatted by the package fmt of the Go
    standard library, which is not in the repository; [format_hex] follows
    its integer formatting: the digits of the magnitude from the least
    significant one, then "0x", then the sign. *)

Module Render.

Import Strconv.

(** digits[d] in "0123456789abcdefx" *)
Definition hex_digit (d : Z) : ascii :=
  match String.get (Z.to_nat d) "0123456789abcdefx" with
  | Some c => c
  | None => "0"%char
  end.

(** for u >= 16 { buf[i] = digits[u&0xF]; u >>= 4 }; buf[i] = digits[u]
    A uint64 has at most sixteen digits, which bounds the loop. *)
Fixpoint hex_loop (fuel : nat) (u : Z) (buf : string) : string :=
  match fuel with
  | O => buf
  | S fuel' =>
      if 16 <=? u
      then hex_loop fuel' (Z.shiftr u 4) (String (hex_digit (Z.land u 15)) buf)
      else String (hex_digit u) buf
  end.

(** Modelled from the spec: fmt.Sprintf("%#x", id) for an int32 [id], as the
    template applies it to each packet ID; the spec says that the renderer
    binds each name to its ID formatted in hexadecimal. *)
Definition format_hex (id : Z) : string :=
  let negative := id <? 0 in
  let u := wrap_uint64 id in
  let u := if negative then wrap_uint64 (- u) else u in
  let body := String "0" (String "x" (hex_loop 16 u EmptyString)) in
  if negative then String "-" body else body.

End Render.

(** * Properties *)

(** ** Strings: the two suffixes never meet *)

Section Suffixes.

Lemma length_append (a b : string) :
  String.length (a +:+ b) = (String.length a + String.length b)%nat.
Proof. induction a as [|c a IH]; simpl; [reflexivity | now rewrite IH]. Qed.

Lemma append_same_length_inj (a b s t : string) :
  String.length s = String.length t -> a +:+ s = b +:+ t -> a = b /\ s = t.
Proof.
  intros Hlen. revert b.
  induction a as [|c a IH]; intros [|d b] Heq.
  - now split.
  - apply (f_equal String.length) in Heq.
    rewrite !length_append in Heq. simpl in Heq. lia.
  - apply (f_equal String.length) in Heq.
    rewrite !length_append in Heq. simpl in Heq. lia.
  - injection Heq as -> Heq. destruct (IH _ Heq) as [-> ->]. now split.
Qed.

Lemma suffixes_differ (a b : string) :
  a +:+ "Clientbound" <> b +:+ "Serverbound".
Proof.
  intros Heq. apply append_same_length_inj in Heq as [_ Heq]; [discriminate | reflexivity].
Qed.

Lemma append_nonempty_neq (a s : string) :
  s <> "" -> a +:+ s <> a.
Proof.
  intros Hs Heq. apply (f_equal String.length) in Heq.
  rewrite length_append in Heq. destruct s; [congruence | simpl in Heq; lia].
Qed.

End Suffixes.

(** ** The disambiguator *)

Module DisambiguatorFacts.

Import Disambiguator.

(** *** The reverse index *)

Lemma reverse_index_snoc (l : list (Z * string)) (e : Z * string) :
  reverse_index (l ++ [e]) = <[e.2 := e.1]> (reverse_index l).
Proof. unfold reverse_index. now rewrite foldl_app. Qed.

(** Every binding of the index comes from a visited entry. *)
Lemma reverse_index_sound (l : list (Z * string)) (n : string) (k : Z) :
  reverse_index l !! n = Some k -> (k, n) ∈ l.
Proof.
  induction l as [|[k' n'] l IH] using rev_ind; [done|].
  rewrite reverse_index_snoc, lookup_insert. simpl.
  case_decide as Hn; intros Hk; set_solver.
Qed.

(** Every visited name is bound in the index. *)
Lemma reverse_index_complete (l : list (Z * string)) (n : string) (k : Z) :
  (k, n) ∈ l -> is_Some (reverse_index l !! n).
Proof.
  induction l as [|[k' n'] l IH] using rev_ind; [set_solver|].
  rewrite reverse_index_snoc, lookup_insert. simpl.
  case_decide as Hn; [eauto|]. intros Hk.
  apply elem_of_app in Hk as [Hk|Hk]; [auto | set_solver].
Qed.

(** The index binds a name to the ID of the entry visited last with it. *)
Lemma reverse_index_last (l1 l2 : list (Z * string)) (n : string) (k : Z) :
  n ∉ l2.*2 -> reverse_index (l1 ++ (k, n) :: l2) !! n = Some k.
Proof.
  induction l2 as [|[k' n'] l2 IH] using rev_ind; intros Hn.
  - rewrite reverse_index_snoc. simpl. apply lookup_insert_eq.
  - rewrite app_comm_cons, app_assoc, reverse_index_snoc. simpl.
    rewrite fmap_app in Hn. simpl in Hn.
    rewrite lookup_insert_ne by set_solver. apply IH. set_solver.
Qed.

(** *** Visiting orders of a table *)

Lemma range_order_elem (t : gmap Z string) (l : list (Z * string)) k n :
  range_order t l -> (k, n) ∈ l <-> t !! k = Some n.
Proof. intros H. unfold range_order in H. rewrite H. apply elem_of_map_to_list. Qed.

Lemma range_order_NoDup (t : gmap Z string) (l : list (Z * string)) :
  range_order t l -> NoDup l.*1.
Proof. intros H. unfold range_order in H. rewrite H. apply NoDup_fst_map_to_list. Qed.

Lemma range_order_default (t : gmap Z string) : range_order t (map_to_list t).
Proof. unfold range_order. reflexivity. Qed.

(** For every entry of a table there is a visiting order that ends with it. *)
Lemma range_order_ending (t : gmap Z string) k n :
  t !! k = Some n -> exists l, range_order t (l ++ [(k, n)]).
Proof.
  intros H. apply elem_of_map_to_list, elem_of_Permutation in H as [l Hl].
  exists l. unfold range_order. rewrite Hl. symmetry. apply Permutation_cons_append.
Qed.

(** *** The second loop, entry by entry *)

Section SecondLoop.

Variable clientBounds : gmap string Z.

Let run (m : duplexMappings) (svisit : list (Z * string)) : duplexMappings :=
  foldl (rename_step clientBounds) m svisit.

(** A serverbound key that is not visited keeps its value. *)
Lemma server_not_visited svisit m k :
  k ∉ svisit.*1 -> Serverbound (run m svisit) !! k = Serverbound m !! k.
Proof.
  revert m. induction svisit as [|[sk sv] l IH]; intros m Hk; [done|].
  simpl. rewrite IH by set_solver.
  unfold rename_step. simpl. destruct (clientBounds !! sv); [|done].
  simpl. apply lookup_insert_ne. set_solver.
Qed.

(** A visited serverbound entry whose name is not indexed keeps its value. *)
Lemma server_kept svisit m k n :
  NoDup svisit.*1 -> (k, n) ∈ svisit -> clientBounds !! n = None ->
  Serverbound (run m svisit) !! k = Serverbound m !! k.
Proof.
  revert m. induction svisit as [|[sk sv] l IH]; intros m Hnd Hk Hn; [set_solver|].
  simpl in *. apply NoDup_cons in Hnd as [Hsk Hnd].
  apply elem_of_cons in Hk as [[= <- <-]|Hk].
  - fold (run (rename_step clientBounds m (k, n)) l).
    rewrite server_not_visited by done.
    unfold rename_step. simpl. now rewrite Hn.
  - rewrite (IH _ Hnd Hk Hn).
    unfold rename_step. simpl. destruct (clientBounds !! sv); [|done].
    simpl. apply lookup_insert_ne. intros ->. apply Hsk.
    apply (list_elem_of_fmap_2 fst) in Hk. exact Hk.
Qed.

(** A visited serverbound entry whose name is indexed gets the suffix. *)
Lemma server_renamed svisit m k n :
  NoDup svisit.*1 -> (k, n) ∈ svisit -> is_Some (clientBounds !! n) ->
  Serverbound (run m svisit) !! k = Some (n +:+ "Serverbound").
Proof.
  revert m. induction svisit as [|[sk sv] l IH]; intros m Hnd Hk Hn; [set_solver|].
  simpl in *. apply NoDup_cons in Hnd as [Hsk Hnd].
  apply elem_of_cons in Hk as [[= <- <-]|Hk].
  - fold (run (rename_step clientBounds m (k, n)) l).
    rewrite server_not_visited by done.
    unfold rename_step. simpl. destruct Hn as [ck ->]. simpl.
    apply lookup_insert_eq.
  - apply (IH _ Hnd Hk Hn).
Qed.

(** A clientbound key that no visited name is indexed to keeps its value. *)
Lemma client_kept svisit m k :
  (forall sk sv, (sk, sv) ∈ svisit -> clientBounds !! sv <> Some k) ->
  Clientbound (run m svisit) !! k = Clientbound m !! k.
Proof.
  revert m. induction svisit as [|[sk sv] l IH]; intros m Hk; [done|].
  simpl. rewrite IH by (intros sk1 sv1 Hin; apply (Hk sk1 sv1); set_solver).
  unfold rename_step. simpl.
  destruct (clientBounds !! sv) as [ck|] eqn:Hsv; [|done].
  simpl. apply lookup_insert_ne. intros ->.
  apply (Hk sk sv); [set_solver | exact Hsv].
Qed.

(** A clientbound key that a visited name is indexed to gets that name with
    the suffix, when no other name is indexed to the key. *)
Lemma client_renamed svisit m k n sk :
  (forall n', clientBounds !! n' = Some k -> n' = n) ->
  (sk, n) ∈ svisit -> clientBounds !! n = Some k ->
  Clientbound (run m svisit) !! k = Some (n +:+ "Clientbound").
Proof.
  intros Hinj. revert m sk.
  induction svisit as [|[sk' sv] l IH]; intros m sk Hk Hn; [set_solver|].
  simpl. destruct (decide (n ∈ l.*2)) as [Hin|Hnot].
  - apply list_elem_of_fmap in Hin as [[sk1 n1] [-> Hin]]. now apply (IH _ sk1).
  - fold (run (rename_step clientBounds m (sk', sv)) l).
    rewrite client_kept.
    + apply elem_of_cons in Hk as [[= <- <-]|Hk].
      * unfold rename_step. simpl. rewrite Hn. simpl. apply lookup_insert_eq.
      * destruct Hnot. apply (list_elem_of_fmap_2 snd) in Hk. exact Hk.
    + intros sk1 sv1 Hin Hsv1. apply Hinj in Hsv1 as ->.
      apply Hnot. apply (list_elem_of_fmap_2 snd) in Hin. exact Hin.
Qed.

End SecondLoop.

(** *** One call, under visiting orders of the two tables *)

Section OneRun.

Variable m : duplexMappings.
Variables cvisit svisit : list (Z * string).
Hypothesis Hc : range_order (Clientbound m) cvisit.
Hypothesis Hs : range_order (Serverbound m) svisit.

Lemma index_entry n k :
  reverse_index cvisit !! n = Some k -> Clientbound m !! k = Some n.
Proof. intros Hn. apply (range_order_elem _ _ _ _ Hc), reverse_index_sound, Hn. Qed.

Lemma index_has_name n :
  is_Some (reverse_index cvisit !! n) <-> has_name (Clientbound m) n.
Proof.
  split.
  - intros [k Hk]. exists k. now apply index_entry.
  - intros [k Hk]. apply (reverse_index_complete _ _ k).
    now apply (range_order_elem _ _ _ _ Hc).
Qed.

Lemma visited_has_name n :
  n ∈ svisit.*2 <-> has_name (Serverbound m) n.
Proof.
  split.
  - intros Hn. apply list_elem_of_fmap in Hn as [[k n'] [-> Hin]].
    exists k. now apply (range_order_elem _ _ _ _ Hs).
  - intros [k Hk]. apply (range_order_elem _ _ _ _ Hs) in Hk.
    apply (list_elem_of_fmap_2 snd) in Hk. exact Hk.
Qed.

Lemma run_server_None k :
  Serverbound m !! k = None ->
  Serverbound (EnsureUniqueNames cvisit svisit m) !! k = None.
Proof.
  intros Hk. unfold EnsureUniqueNames. rewrite server_not_visited; [done|].
  intros Hin. apply list_elem_of_fmap in Hin as [[k' n] [-> Hin]].
  apply (range_order_elem _ _ _ _ Hs) in Hin. simpl in Hk. congruence.
Qed.

Lemma run_server_kept k n :
  Serverbound m !! k = Some n -> ~ has_name (Clientbound m) n ->
  Serverbound (EnsureUniqueNames cvisit svisit m) !! k = Some n.
Proof.
  intros Hk Hn. unfold EnsureUniqueNames.
  rewrite (server_kept _ _ _ _ n); [done | by eapply range_order_NoDup | |].
  - now apply (range_order_elem _ _ _ _ Hs).
  - apply eq_None_not_Some. now rewrite index_has_name.
Qed.

Lemma run_server_renamed k n :
  Serverbound m !! k = Some n -> has_name (Clientbound m) n ->
  Serverbound (EnsureUniqueNames cvisit svisit m) !! k = Some (n +:+ "Serverbound").
Proof.
  intros Hk Hn. unfold EnsureUniqueNames.
  apply server_renamed; [by eapply range_order_NoDup | |].
  - now apply (range_order_elem _ _ _ _ Hs).
  - now apply index_has_name.
Qed.

Lemma run_client_None k :
  Clientbound m !! k = None ->
  Clientbound (EnsureUniqueNames cvisit svisit m) !! k = None.
Proof.
  intros Hk. unfold EnsureUniqueNames. rewrite client_kept; [done|].
  intros sk sv _ Hsv. apply index_entry in Hsv. congruence.
Qed.

Lemma run_client_kept k n :
  Clientbound m !! k = Some n ->
  reverse_index cvisit !! n <> Some k \/ ~ has_name (Serverbound m) n ->
  Clientbound (EnsureUniqueNames cvisit svisit m) !! k = Some n.
Proof.
  intros Hk Hn. unfold EnsureUniqueNames. rewrite client_kept; [done|].
  intros sk sv Hin Hsv. pose proof (index_entry _ _ Hsv) as Hsv'.
  assert (sv = n) as -> by congruence.
  destruct Hn as [Hn|Hn]; [done|]. apply Hn. exists sk.
  now apply (range_order_elem _ _ _ _ Hs).
Qed.

Lemma run_client_renamed k n :
  reverse_index cvisit !! n = Some k -> has_name (Serverbound m) n ->
  Clientbound (EnsureUniqueNames cvisit svisit m) !! k = Some (n +:+ "Clientbound").
Proof.
  intros Hn [sk Hsk]. unfold EnsureUniqueNames.
  apply (client_renamed _ _ _ _ _ sk); [| |done].
  - intros n' Hn'. apply index_entry in Hn, Hn'. congruence.
  - now apply (range_order_elem _ _ _ _ Hs).
Qed.

(** What a clientbound entry of the result can be. *)
Lemma run_client_inv k x :
  Clientbound (EnsureUniqueNames cvisit svisit m) !! k = Some x ->
  exists n, Clientbound m !! k = Some n /\
    (x = n \/ (x = n +:+ "Clientbound" /\ shared m n)).
Proof.
  intros Hx. destruct (Clientbound m !! k) as [n|] eqn:Hk.
  - exists n. split; [done|].
    destruct (decide (reverse_index cvisit !! n = Some k)) as [Hn|Hn].
    + destruct (decide (n ∈ svisit.*2)) as [Hin|Hin].
      * apply visited_has_name in Hin.
        rewrite (run_client_renamed _ _ Hn Hin) in Hx.
        right. split; [congruence|]. split; [by exists k | done].
      * rewrite (run_client_kept _ _ Hk) in Hx; [left; congruence|].
        right. now rewrite <- visited_has_name.
    + rewrite (run_client_kept _ _ Hk) in Hx; [left; congruence | by left].
  - rewrite (run_client_None _ Hk) in Hx. discriminate.
Qed.

(** What a serverbound entry of the result can be. *)
Lemma run_server_inv k x :
  Serverbound (EnsureUniqueNames cvisit svisit m) !! k = Some x ->
  exists n, Serverbound m !! k = Some n /\
    ((x = n /\ ~ has_name (Clientbound m) n) \/
     (x = n +:+ "Serverbound" /\ shared m n)).
Proof.
  intros Hx. destruct (Serverbound m !! k) as [n|] eqn:Hk.
  - exists n. split; [done|].
    destruct (reverse_index cvisit !! n) as [ck|] eqn:Hn.
    + assert (has_name (Clientbound m) n) as Hcn by (apply index_has_name; eauto).
      rewrite (run_server_renamed _ _ Hk Hcn) in Hx.
      right. split; [congruence|]. split; [done | by exists k].
    + assert (~ has_name (Clientbound m) n) as Hcn.
      { rewrite <- index_has_name, Hn. now intros [? ?]. }
      rewrite (run_server_kept _ _ Hk Hcn) in Hx. left. split; [congruence | done].
  - rewrite (run_server_None _ Hk) in Hx. discriminate.
Qed.

End OneRun.

(** *** Whole runs *)

Lemma duplex_eq (m1 m2 : duplexMappings) :
  Clientbound m1 = Clientbound m2 -> Serverbound m1 = Serverbound m2 -> m1 = m2.
Proof. destruct m1, m2. simpl. now intros -> ->. Qed.

Lemma runs_to_default (m : duplexMappings) : runs_to m (EnsureUniqueNames_default m).
Proof.
  exists (map_to_list (Clientbound m)), (map_to_list (Serverbound m)).
  split; [apply range_order_default|]. split; [apply range_order_default | done].
Qed.

(** Without a shared name, a run changes nothing. *)
Lemma run_noop (m m' : duplexMappings) :
  no_shared_name m -> runs_to m m' -> m' = m.
Proof.
  intros Hno (cvisit & svisit & Hc & Hs & ->).
  apply duplex_eq; apply map_eq; intros k.
  - destruct (Clientbound m !! k) as [n|] eqn:Hk.
    + apply (run_client_kept _ _ _ Hc Hs _ _ Hk). right.
      intros Hn. apply (Hno n). split; [by exists k | done].
    + now apply run_client_None.
  - destruct (Serverbound m !! k) as [n|] eqn:Hk.
    + apply (run_server_kept _ _ _ Hc Hs _ _ Hk).
      intros Hn. apply (Hno n). split; [done | by exists k].
    + now apply run_server_None.
Qed.

(** Under [suffix_free], a run leaves no name in both tables. *)
Lemma run_separates (m m' : duplexMappings) :
  suffix_free m -> runs_to m m' -> no_shared_name m'.
Proof.
  intros Hfree (cvisit & svisit & Hc & Hs & ->) x [[k1 Hk1] [k2 Hk2]].
  apply (run_client_inv _ _ _ Hc Hs) in Hk1 as (n1 & Hn1 & Hx1).
  apply (run_server_inv _ _ _ Hc Hs) in Hk2 as (n2 & Hn2 & Hx2).
  destruct Hx1 as [Hx1|[Hx1 Hsh1]], Hx2 as [[Hx2 Hnot]|[Hx2 Hsh2]]; subst x.
  - subst n2. apply Hnot. by exists k1.
  - subst n1. destruct (Hfree _ Hsh2) as [Hf _]. apply Hf. by exists k1.
  - subst n2. destruct (Hfree _ Hsh1) as [_ Hf]. apply Hf. by exists k2.
  - exact (suffixes_differ _ _ Hx2).
Qed.

(** The two tables of one entry each, with the same name. *)
Lemma run_one_pair (k k' : Z) (n : string) (m' : duplexMappings) :
  runs_to {| Clientbound := {[k := n]}; Serverbound := {[k' := n]} |} m' ->
  m' = {| Clientbound := {[k := n +:+ "Clientbound"]};
          Serverbound := {[k' := n +:+ "Serverbound"]} |}.
Proof.
  intros (cvisit & svisit & Hc & Hs & ->).
  unfold range_order in Hc, Hs. simpl in Hc, Hs.
  rewrite map_to_list_singleton in Hc, Hs.
  apply Permutation_singleton_r in Hc as ->, Hs as ->.
  unfold EnsureUniqueNames, reverse_index, rename_step. simpl.
  rewrite lookup_insert_eq. simpl.
  now rewrite !insert_singleton_eq.
Qed.

(** The entry visited last with a name is the one the index binds. *)
Lemma reverse_index_split (l : list (Z * string)) (n : string) (k : Z) :
  reverse_index l !! n = Some k ->
  exists l1 l2, l = l1 ++ (k, n) :: l2 /\ n ∉ l2.*2.
Proof.
  induction l as [|[k' n'] l IH] using rev_ind; [done|].
  rewrite reverse_index_snoc, lookup_insert. simpl.
  case_decide as Hn; intros Hk.
  - injection Hk as ->. subst n'. exists l, []. split; [done | set_solver].
  - destruct (IH Hk) as (l1 & l2 & -> & Hl2).
    exists l1, (l2 ++ [(k', n')]). split; [by rewrite <- app_assoc|].
    rewrite fmap_app. set_solver.
Qed.

(** A run keeps the key sets of both tables. *)
Lemma run_dom (m m' : duplexMappings) :
  runs_to m m' ->
  dom (Clientbound m') = dom (Clientbound m) /\
  dom (Serverbound m') = dom (Serverbound m).
Proof.
  intros (cvisit & svisit & Hc & Hs & ->).
  split; apply set_eq; intros k; rewrite !elem_of_dom.
  - split.
    + intros [x Hx]. apply (run_client_inv _ _ _ Hc Hs) in Hx as (n & -> & _). eauto.
    + intros [n Hn].
      destruct (decide (reverse_index cvisit !! n = Some k)) as [Hi|Hi];
        [destruct (decide (n ∈ svisit.*2)) as [Hin|Hin]|].
      * apply (visited_has_name _ _ Hs) in Hin.
        rewrite (run_client_renamed _ _ _ Hc Hs _ _ Hi Hin). eauto.
      * rewrite (run_client_kept _ _ _ Hc Hs _ _ Hn); [eauto|].
        right. now rewrite <- (visited_has_name _ _ Hs).
      * rewrite (run_client_kept _ _ _ Hc Hs _ _ Hn); [eauto | by left].
  - split.
    + intros [x Hx]. apply (run_server_inv _ _ _ Hc Hs) in Hx as (n & -> & _). eauto.
    + intros [n Hn].
      destruct (reverse_index cvisit !! n) as [ck|] eqn:Hi.
      * rewrite (run_server_renamed _ _ _ Hc Hs _ _ Hn); [eauto|].
        apply (index_has_name _ _ Hc). rewrite Hi. eauto.
      * rewrite (run_server_kept _ _ _ Hc Hs _ _ Hn); [eauto|].
        rewrite <- (index_has_name _ _ Hc), Hi. now intros [? ?].
Qed.

End DisambiguatorFacts.

(** *** The claims about the disambiguator *)

Module DisambiguatorSpec.

Import Disambiguator DisambiguatorFacts Fixtures.

(** The run of [m] in the visiting orders of [map_to_list]. *)
Ltac default_run m :=
  exists (map_to_list (Clientbound m)), (map_to_list (Serverbound m));
  split; [apply range_order_default|];
  split; [apply range_order_default | vm_compute; reflexivity].

Lemma keep_alive_canonical_suffix_free : suffix_free keep_alive_canonical.
Proof.
  intros n [[k Hk] _]. simpl in Hk.
  apply lookup_singleton_Some in Hk as [_ <-].
  split; intros [i Hi]; simpl in Hi;
    apply lookup_singleton_Some in Hi as [_ Hi]; discriminate.
Qed.

(** C1, as stated, fails: on the tables [clash] the call produces
    [clash_once], in which the name "KeepAliveServerbound" is carried by the
    clientbound ID 2 and by the serverbound ID 3. *)
Lemma EnsureUniqueNames_leaves_shared_name :
  runs_to clash clash_once /\ ~ no_shared_name clash_once.
Proof.
  split.
  - default_run clash.
  - intros Hno. apply (Hno "KeepAliveServerbound").
    split; [exists 2 | exists 3]; reflexivity.
Qed.

(** C1, amended: when no clientbound name is a shared name followed by
    "Serverbound" and no serverbound name is a shared name followed by
    "Clientbound", then after one call of EnsureUniqueNames, whatever the
    visiting orders, no name is in both tables. *)
Theorem EnsureUniqueNames_unique_names (m m' : duplexMappings) :
  suffix_free m -> runs_to m m' -> no_shared_name m'.
Proof. apply run_separates. Qed.

Lemma EnsureUniqueNames_unique_names_witness :
  no_shared_name (EnsureUniqueNames_default keep_alive_canonical).
Proof.
  apply (EnsureUniqueNames_unique_names keep_alive_canonical).
  - exact keep_alive_canonical_suffix_free.
  - default_run keep_alive_canonical.
Defined.

(** C3, as stated, fails: no call on Clientbound={5:"keep_alive"},
    Serverbound={7:"keep_alive"} produces the names "KeepAliveClientbound"
    and "KeepAliveServerbound". *)
Lemma EnsureUniqueNames_keep_alive_not_camel :
  ~ runs_to keep_alive_raw keep_alive_out.
Proof.
  intros Hrun. apply run_one_pair in Hrun.
  apply (f_equal Clientbound) in Hrun. simpl in Hrun.
  apply (f_equal (lookup 5)) in Hrun. vm_compute in Hrun. discriminate.
Qed.

(** C3, amended: on Clientbound={5:"keep_alive"}, Serverbound={7:"keep_alive"}
    the call produces {5:"keep_aliveClientbound"} and
    {7:"keep_aliveServerbound"}: it appends the suffixes to the names as they
    are; on the canonical names {5:"KeepAlive"}, {7:"KeepAlive"} it produces
    {5:"KeepAliveClientbound"} and {7:"KeepAliveServerbound"}. Both IDs are
    preserved. *)
Theorem EnsureUniqueNames_keep_alive (m m' : duplexMappings) :
  runs_to m m' ->
  (m = keep_alive_raw -> m' = keep_alive_raw_out) /\
  (m = keep_alive_canonical -> m' = keep_alive_out).
Proof.
  intros Hrun. split; intros ->; apply run_one_pair in Hrun; exact Hrun.
Qed.

Lemma EnsureUniqueNames_keep_alive_witness :
  EnsureUniqueNames_default keep_alive_raw = keep_alive_raw_out.
Proof.
  apply (EnsureUniqueNames_keep_alive keep_alive_raw); [|reflexivity].
  default_run keep_alive_raw.
Defined.

(** C4: a call of EnsureUniqueNames keeps the set of IDs of both tables, so
    it removes no entry, and it leaves unchanged every entry whose name is
    not in both tables. *)
Theorem EnsureUniqueNames_frame (m m' : duplexMappings) :
  runs_to m m' ->
  dom (Clientbound m') = dom (Clientbound m) /\
  dom (Serverbound m') = dom (Serverbound m) /\
  (forall k n, ~ shared m n ->
     Clientbound m !! k = Some n -> Clientbound m' !! k = Some n) /\
  (forall k n, ~ shared m n ->
     Serverbound m !! k = Some n -> Serverbound m' !! k = Some n).
Proof.
  intros Hrun. destruct (run_dom _ _ Hrun) as [Hdc Hds].
  destruct Hrun as (cvisit & svisit & Hc & Hs & ->).
  repeat split; [exact Hdc | exact Hds | |].
  - intros k n Hsh Hk. apply (run_client_kept _ _ _ Hc Hs _ _ Hk).
    right. intros Hn. apply Hsh. split; [by exists k | done].
  - intros k n Hsh Hk. apply (run_server_kept _ _ _ Hc Hs _ _ Hk).
    intros Hn. apply Hsh. split; [done | by exists k].
Qed.

Lemma EnsureUniqueNames_frame_witness :
  dom (Clientbound clash_once) = dom (Clientbound clash) /\
  dom (Serverbound clash_once) = dom (Serverbound clash) /\
  (forall k n, ~ shared clash n ->
     Clientbound clash !! k = Some n -> Clientbound clash_once !! k = Some n) /\
  (forall k n, ~ shared clash n ->
     Serverbound clash !! k = Some n -> Serverbound clash_once !! k = Some n).
Proof.
  apply (EnsureUniqueNames_frame clash clash_once).
  default_run clash.
Defined.

(** A first call that leaves a name in both tables is followed by a second
    call that renames again: the call on [clash] produces [clash_once], and a
    second call turns [clash_once] into [clash_twice], in which the names of
    IDs 2 and 3 carry a second suffix. *)
Lemma EnsureUniqueNames_second_run_renames :
  runs_to clash clash_once /\ runs_to clash_once clash_twice /\
  clash_twice <> clash_once.
Proof.
  split; [default_run clash|]. split; [default_run clash_once|].
  intros Heq. apply (f_equal (fun d => Serverbound d !! 3)) in Heq.
  vm_compute in Heq. discriminate.
Qed.

Lemma keep_alive_out_no_shared_name : no_shared_name keep_alive_out.
Proof.
  apply (run_separates keep_alive_canonical).
  - exact keep_alive_canonical_suffix_free.
  - default_run keep_alive_canonical.
Qed.

(** C6: a call on tables with no shared name leaves both tables equal to
    their input; consequently, after a first call that was successful, that
    is, that left no name in both tables, a second call changes nothing. *)
Theorem EnsureUniqueNames_noop (m m' : duplexMappings) :
  runs_to m m' ->
  (no_shared_name m -> m' = m) /\
  (no_shared_name m' -> forall m'', runs_to m' m'' -> m'' = m').
Proof.
  intros Hrun. split.
  - intros Hno. now apply run_noop.
  - intros Hno m'' Hrun'. now apply run_noop.
Qed.

(** After the call on the canonical pair, which renames both entries, a
    second call changes nothing. *)
Lemma EnsureUniqueNames_noop_witness :
  EnsureUniqueNames_default keep_alive_out = keep_alive_out.
Proof.
  apply (EnsureUniqueNames_noop keep_alive_canonical keep_alive_out).
  - default_run keep_alive_canonical.
  - exact keep_alive_out_no_shared_name.
  - default_run keep_alive_out.
Defined.

(** C9: when one name is carried by two distinct clientbound IDs and by a
    serverbound entry, a call renames the one clientbound entry with that
    name that the first loop visited last, the ID the reverse index keeps
    for the name, and every other clientbound entry with the name keeps it;
    and two calls on these same tables can produce different tables. *)
Theorem EnsureUniqueNames_duplicate_clientbound_name
    (m : duplexMappings) (n : string) (i j : Z) :
  i <> j ->
  Clientbound m !! i = Some n -> Clientbound m !! j = Some n ->
  has_name (Serverbound m) n ->
  (forall cvisit svisit,
     range_order (Clientbound m) cvisit -> range_order (Serverbound m) svisit ->
     exists ck before after,
       cvisit = before ++ (ck, n) :: after /\ (n ∉ after.*2) /\
       reverse_index cvisit !! n = Some ck /\
       Clientbound (EnsureUniqueNames cvisit svisit m) !! ck
         = Some (n +:+ "Clientbound") /\
       forall k, k <> ck -> Clientbound m !! k = Some n ->
         Clientbound (EnsureUniqueNames cvisit svisit m) !! k = Some n) /\
  (exists m1 m2, runs_to m m1 /\ runs_to m m2 /\ m1 <> m2).
Proof.
  intros Hij Hi Hj Hsn. split.
  - intros cvisit svisit Hc Hs.
    assert (is_Some (reverse_index cvisit !! n)) as [ck Hck].
    { apply (index_has_name _ _ Hc). by exists i. }
    destruct (reverse_index_split _ _ _ Hck) as (before & after & Hsplit & Hlast).
    exists ck, before, after. repeat split; [done..| |].
    + now apply (run_client_renamed _ _ _ Hc Hs).
    + intros k Hk Hkn. apply (run_client_kept _ _ _ Hc Hs _ _ Hkn).
      left. congruence.
  - destruct (range_order_ending _ _ _ Hi) as [li Hli].
    destruct (range_order_ending _ _ _ Hj) as [lj Hlj].
    pose proof (range_order_default (Serverbound m)) as Hs.
    exists (EnsureUniqueNames (li ++ [(i, n)]) (map_to_list (Serverbound m)) m),
           (EnsureUniqueNames (lj ++ [(j, n)]) (map_to_list (Serverbound m)) m).
    split; [exists (li ++ [(i, n)]), (map_to_list (Serverbound m)); done|].
    split; [exists (lj ++ [(j, n)]), (map_to_list (Serverbound m)); done|].
    intros Heq. apply (f_equal (fun d => Clientbound d !! i)) in Heq.
    rewrite (run_client_renamed _ _ _ Hli Hs i n) in Heq;
      [|rewrite reverse_index_snoc; apply lookup_insert_eq | done].
    rewrite (run_client_kept _ _ _ Hlj Hs _ _ Hi) in Heq.
    + injection Heq as Heq. now apply append_nonempty_neq in Heq.
    + left. rewrite reverse_index_snoc. simpl. rewrite lookup_insert_eq. congruence.
Qed.

Lemma EnsureUniqueNames_duplicate_clientbound_name_witness :
  exists m1 m2,
    runs_to twice_clientbound m1 /\ runs_to twice_clientbound m2 /\ m1 <> m2.
Proof.
  apply (EnsureUniqueNames_duplicate_clientbound_name twice_clientbound "Chat" 1 2).
  - lia.
  - reflexivity.
  - reflexivity.
  - exists 3. reflexivity.
Defined.

End DisambiguatorSpec.

(** ** Mapping-key parsing *)

Module StrconvFacts.

Import Strconv.

Lemma digit_of_bounds (c : ascii) (d : Z) :
  digit_of c = Some d -> 0 <= d <= 35.
Proof.
  unfold digit_of, in_range. intros Hd.
  destruct (48 <=? byte_of c) eqn:H1, (byte_of c <=? 57) eqn:H2; simpl in Hd;
    try (injection Hd as <-; lia);
    destruct (97 <=? lower c) eqn:H3, (lower c <=? 122) eqn:H4; simpl in Hd;
    try discriminate; injection Hd as <-; lia.
Qed.

Lemma digit_of_not_underscore (c : ascii) (d : Z) :
  digit_of c = Some d -> (byte_of c =? 95) = false.
Proof.
  intros Hd. destruct (Z.eqb_spec (byte_of c) 95) as [Heq|]; [|done].
  unfold digit_of, lower in Hd. rewrite Heq in Hd. vm_compute in Hd. discriminate.
Qed.

Lemma numeral_ge (base : Z) (s : string) (acc v : Z) :
  0 < base -> 0 <= acc -> numeral base s acc = Some v -> acc <= v.
Proof.
  intros Hb. revert acc. induction s as [|c s IH]; intros acc Hacc Hv; simpl in Hv.
  - injection Hv as <-. lia.
  - destruct (digit_of c) as [d|] eqn:Hd; [|done].
    destruct (d <? base); [|done]. apply digit_of_bounds in Hd.
    apply IH in Hv; nia.
Qed.

(** On digits of the base the loop of ParseUint, run for 32 bits, computes
    the number they denote, and reports a range error when it is above
    2^32 - 1. *)
Lemma digits_numeral (base0 : bool) (base : Z) (s : string) (n v : Z)
    (underscores : bool) :
  2 <= base <= 36 -> 0 <= n <= 2 ^ 32 - 1 ->
  numeral base s n = Some v ->
  digits base0 base (maxUint64 / base + 1) (2 ^ 32 - 1) s n underscores =
    if v <=? 2 ^ 32 - 1 then inl (v, underscores)
    else inr (2 ^ 32 - 1, ErrRange).
Proof.
  intros Hb. revert n. induction s as [|c s IH]; intros n Hn Hv; simpl in Hv |- *.
  - injection Hv as <-. destruct (Z.leb_spec n (2 ^ 32 - 1)); [done | lia].
  - destruct (digit_of c) as [d|] eqn:Hd; [|done].
    rewrite (digit_of_not_underscore _ _ Hd). simpl.
    destruct (Z.ltb_spec d base) as [Hdb|]; [|done].
    pose proof (digit_of_bounds _ _ Hd) as Hd0.
    destruct (Z.leb_spec base d); [lia|].
    assert (2 ^ 32 < maxUint64 / base + 1) as Hcut.
    { unfold maxUint64. assert (2 ^ 32 <= (2 ^ 64 - 1) / base); [|lia].
      apply Z.div_le_lower_bound; [lia|]. change (2 ^ 64 - 1) with 18446744073709551615.
      change (2 ^ 32) with 4294967296. nia. }
    destruct (Z.leb_spec (maxUint64 / base + 1) n); [lia|].
    assert (0 <= n * base < 2 ^ 64) as Hnb.
    { change (2 ^ 32 - 1) with 4294967295 in Hn.
      change (2 ^ 64) with 18446744073709551616. nia. }
    unfold wrap_uint64. rewrite (Z.mod_small (n * base)) by exact Hnb.
    assert (0 <= n * base + d < 2 ^ 64) as Hnd.
    { change (2 ^ 32 - 1) with 4294967295 in Hn.
      change (2 ^ 64) with 18446744073709551616. nia. }
    rewrite (Z.mod_small (n * base + d)) by exact Hnd.
    destruct (Z.ltb_spec (n * base + d) (n * base)); [lia|]. simpl.
    destruct (Z.ltb_spec (2 ^ 32 - 1) (n * base + d)) as [Hbig|Hsmall].
    + apply numeral_ge in Hv; [|lia..].
      destruct (Z.leb_spec v (2 ^ 32 - 1)); [lia | done].
    + apply IH; [lia | done].
Qed.

(** A byte that is a digit below ten is none of b, o, x in either case. *)
Lemma small_digit_not_base_letter (c : ascii) :
  match digit_of c with
  | Some d => if d <? 10 then negb (is_base_letter c) else true
  | None => true
  end = true.
Proof. destruct c as [[] [] [] [] [] [] [] []]; vm_compute; reflexivity. Qed.

Lemma numeral_first_digit (base : Z) (c : ascii) (s : string) (v : Z) :
  base <= 10 -> numeral base (String c s) 0 = Some v -> is_base_letter c = false.
Proof.
  intros Hb Hv. simpl in Hv. pose proof (small_digit_not_base_letter c) as Hc.
  destruct (digit_of c) as [d|]; [|done].
  destruct (Z.ltb_spec d base); [|done].
  destruct (Z.ltb_spec d 10); [|lia]. now apply negb_true_iff in Hc.
Qed.

(** ParseUint with base 0 and 32 bits, on a prefix and digits of its base. *)
Lemma ParseUint_numeral (s body : string) (b v : Z) :
  s <> "" -> base_prefix s = (b, body) -> 2 <= b <= 36 ->
  numeral b body 0 = Some v ->
  ParseUint s 0 32 =
    if v <=? 2 ^ 32 - 1 then (v, None) else (2 ^ 32 - 1, Some ErrRange).
Proof.
  intros Hs Hpre Hb Hv. unfold ParseUint. destruct s as [|c s]; [done|].
  rewrite Hpre. cbn [fst snd in_range Z.leb Z.compare andb negb Z.eqb Z.ltb orb].
  change (wrap_uint64 (wrap_uint64 (Z.shiftl 1 32) - 1)) with (2 ^ 32 - 1).
  rewrite (digits_numeral true b body 0 v false Hb) by (done || lia).
  by destruct (v <=? 2 ^ 32 - 1).
Qed.

Lemma to_int64_small (z : Z) : - 2 ^ 63 <= z < 2 ^ 63 -> to_int64 z = z.
Proof.
  intros Hz. unfold to_int64, wrap_signed. rewrite Z.mod_small; lia.
Qed.

Lemma to_int32_small (z : Z) : - 2 ^ 31 <= z < 2 ^ 31 -> to_int32 z = z.
Proof.
  intros Hz. unfold to_int32, wrap_signed. rewrite Z.mod_small; lia.
Qed.

Lemma numeral_nonneg (b : Z) (s : string) (v : Z) :
  2 <= b -> numeral b s 0 = Some v -> 0 <= v.
Proof. intros Hb Hv. apply numeral_ge in Hv; lia. Qed.

(** ParseInt with base 0 and 32 bits, without a sign. *)
Lemma ParseInt_unsigned (c : ascii) (s body : string) (b v : Z) :
  is_sign c = false -> base_prefix (String c s) = (b, body) -> 2 <= b <= 36 ->
  numeral b body 0 = Some v ->
  ParseInt (String c s) 0 32 =
    if v <? 2 ^ 31 then (v, None) else (2 ^ 31 - 1, Some ErrRange).
Proof.
  intros Hc Hpre Hb Hv. unfold ParseInt.
  unfold is_sign in Hc. apply orb_false_iff in Hc as [-> ->].
  assert (String c s <> "") as Hs by discriminate.
  rewrite (ParseUint_numeral _ _ _ _ Hs Hpre Hb Hv).
  assert (0 <= v) as Hv0 by (apply (numeral_nonneg b body); [lia | done]).
  change (if 32 =? 0 then 64 else 32) with 32.
  change (wrap_uint64 (Z.shiftl 1 (32 - 1))) with (2 ^ 31).
  cbn [Z.eqb negb andb].
  destruct (Z.leb_spec v (2 ^ 32 - 1)); cbn [andb negb].
  - destruct (Z.leb_spec (2 ^ 31) v), (Z.ltb_spec v (2 ^ 31)); try lia; [done|].
    rewrite to_int64_small by lia. done.
  - destruct (Z.ltb_spec v (2 ^ 31)); [lia | done].
Qed.

(** ParseInt with base 0 and 32 bits, after a minus sign. *)
Lemma ParseInt_negative (s body : string) (b v : Z) :
  s <> "" -> base_prefix s = (b, body) -> 2 <= b <= 36 ->
  numeral b body 0 = Some v ->
  ParseInt (String "-" s) 0 32 =
    if v <=? 2 ^ 31 then (- v, None) else (- 2 ^ 31, Some ErrRange).
Proof.
  intros Hs Hpre Hb Hv. unfold ParseInt.
  change (byte_of "-" =? 43) with false. change (byte_of "-" =? 45) with true.
  cbn iota.
  rewrite (ParseUint_numeral _ _ _ _ Hs Hpre Hb Hv).
  assert (0 <= v) as Hv0 by (apply (numeral_nonneg b body); [lia | done]).
  change (if 32 =? 0 then 64 else 32) with 32.
  change (wrap_uint64 (Z.shiftl 1 (32 - 1))) with (2 ^ 31).
  cbn [Z.eqb negb andb].
  destruct (Z.leb_spec v (2 ^ 32 - 1)); cbn [andb negb].
  - destruct (Z.ltb_spec (2 ^ 31) v), (Z.leb_spec v (2 ^ 31)); try lia; [done|].
    rewrite (to_int64_small v) by lia. rewrite to_int64_small by lia. done.
  - destruct (Z.leb_spec v (2 ^ 31)); [lia | done].
Qed.

(** The prefixes of the three forms. *)
Lemma base_prefix_decimal (s : string) :
  starts_nonzero_digit s = true ->
  base_prefix s = (10, s) /\ exists c rest, s = String c rest /\ is_sign c = false.
Proof.
  destruct s as [|c rest]; [done|]. unfold starts_nonzero_digit, in_range.
  intros Hc. apply andb_true_iff in Hc as [H1 H2].
  apply Z.leb_le in H1, H2. split.
  - unfold base_prefix. destruct (Z.eqb_spec (byte_of c) 48); [lia | done].
  - exists c, rest. split; [done|]. unfold is_sign.
    destruct (Z.eqb_spec (byte_of c) 43), (Z.eqb_spec (byte_of c) 45); try lia; done.
Qed.

Lemma base_prefix_hex (x c : ascii) (rest : string) :
  lower x = 120 ->
  base_prefix (String "0" (String x (String c rest))) = (16, String c rest).
Proof. intros Hx. unfold base_prefix. now rewrite Hx. Qed.

Lemma base_prefix_octal (s : string) (v : Z) :
  numeral 8 s 0 = Some v -> base_prefix (String "0" s) = (8, s).
Proof.
  intros Hv. unfold base_prefix. change (byte_of "0" =? 48) with true. cbn iota.
  destruct s as [|c1 [|c2 rest]]; [done..|].
  apply numeral_first_digit in Hv; [|lia].
  unfold is_base_letter in Hv.
  apply orb_false_iff in Hv as [Hv ->]. apply orb_false_iff in Hv as [-> ->]. done.
Qed.

(** The loop of ParseUint never produces a negative number. *)
Lemma digits_nonneg (base0 : bool) (base cutoff maxVal : Z) (s : string)
    (n : Z) (underscores : bool) (n' : Z) (u : bool) :
  0 <= n -> digits base0 base cutoff maxVal s n underscores = inl (n', u) ->
  0 <= n'.
Proof.
  revert n underscores. induction s as [|c s IH]; intros n underscores Hn Hd;
    simpl in Hd.
  - injection Hd as <- _. done.
  - destruct ((byte_of c =? 95) && base0); [by eapply IH|].
    destruct (digit_of c) as [d|]; [|done].
    destruct (base <=? d); [done|]. destruct (cutoff <=? n); [done|].
    destruct (_ || _); [done|]. eapply IH; [|exact Hd].
    unfold wrap_uint64. apply Z.mod_pos_bound. lia.
Qed.

Lemma ParseUint_nonneg (s : string) (un : Z) :
  ParseUint s 0 32 = (un, None) -> 0 <= un.
Proof.
  unfold ParseUint. destruct s as [|c s]; [done|].
  cbn [in_range Z.leb Z.compare andb negb Z.eqb Z.ltb orb].
  destruct (digits _ _ _ _ _ _ _) as [[n u]|[n e]] eqn:Hd; [|done].
  apply digits_nonneg in Hd; [|lia].
  destruct (u && _); [done|]. by intros [= <-].
Qed.

(** With a range error the loop of ParseUint returns the largest value. *)
Lemma digits_range (base0 : bool) (base cutoff maxVal : Z) (s : string)
    (n : Z) (underscores : bool) (v : Z) :
  digits base0 base cutoff maxVal s n underscores = inr (v, ErrRange) ->
  v = maxVal.
Proof.
  revert n underscores. induction s as [|c s IH]; intros n underscores Hd;
    simpl in Hd; [done|].
  destruct ((byte_of c =? 95) && base0); [by eapply IH|].
  destruct (digit_of c) as [d|]; [|done].
  destruct (base <=? d); [done|].
  destruct (cutoff <=? n); [by injection Hd|].
  destruct (_ || _); [by injection Hd | by eapply IH].
Qed.

Lemma ParseUint_range (s : string) (un : Z) :
  ParseUint s 0 32 = (un, Some ErrRange) -> un = 2 ^ 32 - 1.
Proof.
  unfold ParseUint. destruct s as [|c s]; [done|].
  cbn [in_range Z.leb Z.compare andb negb Z.eqb Z.ltb orb].
  change (wrap_uint64 (wrap_uint64 (Z.shiftl 1 32) - 1)) with (2 ^ 32 - 1).
  destruct (digits _ _ _ _ _ _ _) as [[n u]|[n e]] eqn:Hd.
  - by destruct (u && _).
  - intros [= -> ->]. by apply digits_range in Hd.
Qed.

(** What ParseInt accepts with 32 bits lies in the int32 range. *)
Lemma ParseInt_int32 (s : string) (n : Z) :
  ParseInt s 0 32 = (n, None) -> - 2 ^ 31 <= n < 2 ^ 31.
Proof.
  unfold ParseInt. destruct s as [|c s]; [done|].
  change (if 32 =? 0 then 64 else 32) with 32.
  change (wrap_uint64 (Z.shiftl 1 (32 - 1))) with (2 ^ 31).
  assert (forall (neg : bool) (body : string),
    (let '(un, err) := ParseUint body 0 32 in
     match err with
     | Some ErrRange | None =>
         if negb neg && (2 ^ 31 <=? un) then (to_int64 (2 ^ 31 - 1), Some ErrRange)
         else if neg && (2 ^ 31 <? un)
              then (to_int64 (- to_int64 (2 ^ 31)), Some ErrRange)
              else (if neg then to_int64 (- to_int64 un) else to_int64 un, None)
     | Some e => (0, Some e)
     end) = (n, None) -> - 2 ^ 31 <= n < 2 ^ 31) as Hgen.
  { intros neg body. destruct (ParseUint body 0 32) as [un err] eqn:Hun.
    assert (err = None -> 0 <= un) as Hpos
      by (intros ->; by apply ParseUint_nonneg in Hun).
    assert (err = Some ErrRange -> un = 2 ^ 32 - 1) as Hmax
      by (intros ->; by apply ParseUint_range in Hun).
    destruct neg; cbn [negb andb].
    - destruct (Z.ltb_spec (2 ^ 31) un); [by destruct err as [[]|]|].
      destruct err as [[]|]; try done; [specialize (Hmax eq_refl); lia|].
      intros [= <-]. specialize (Hpos eq_refl).
      rewrite (to_int64_small un) by lia. rewrite to_int64_small by lia. lia.
    - destruct (Z.leb_spec (2 ^ 31) un); [by destruct err as [[]|]|].
      destruct err as [[]|]; try done; [specialize (Hmax eq_refl); lia|].
      intros [= <-]. specialize (Hpos eq_refl).
      rewrite to_int64_small by lia. lia. }
  destruct (byte_of c =? 43); [apply (Hgen false)|].
  destruct (byte_of c =? 45); [apply (Hgen true) | apply (Hgen false)].
Qed.

End StrconvFacts.

(** ** The extractor *)

Module ExtractorFacts.

Import Disambiguator Strconv Strcase Extractor.

(** *** unnest *)

Lemma reaches_app (o o1 o2 : object) (pre post : list string) :
  reaches o pre o1 -> reaches o1 post o2 -> reaches o (pre ++ post) o2.
Proof.
  induction 1 as [|o k next keys o1 Hk _ IH]; intros Hpost; [done|].
  simpl. eapply reaches_cons; eauto.
Qed.

Lemma unnest_Ok (o : object) (keys : list string) (o' : object) :
  unnest o keys = Ok o' <-> reaches o keys o'.
Proof.
  split.
  - revert o. induction keys as [|k keys IH]; intros o Hun; simpl in Hun.
    + injection Hun as ->. constructor.
    + destruct (get k o) as [[| | | | |next]|] eqn:Hk; try discriminate.
      eapply reaches_cons; eauto.
  - induction 1 as [|o k next keys o' Hk _ IH]; simpl; [done|].
    now rewrite Hk.
Qed.

Lemma unnest_Err (o : object) (keys : list string) (e : error) :
  unnest o keys = Err e <-> path_error o keys e.
Proof.
  split.
  - revert o. induction keys as [|k keys IH]; intros o Hun; simpl in Hun; [done|].
    destruct (get k o) as [sub|] eqn:Hk.
    + destruct sub as [| | | | |next];
        try (injection Hun as <-; exists [], k, keys, o;
             split; [done|]; split; [constructor|]; right; eauto).
      destruct (IH _ Hun) as (pre & k' & post & o' & -> & Hreach & Hcase).
      exists (k :: pre), k', post, o'. split; [done|].
      split; [eapply reaches_cons; eauto | done].
    + injection Hun as <-. exists [], k, keys, o.
      split; [done|]. split; [constructor|]. by left.
  - intros (pre & k & post & o' & -> & Hreach & Hcase).
    induction Hreach as [|o k1 next keys o' Hk1 _ IH]; simpl.
    + destruct Hcase as [[-> ->]|(sub & -> & Hsub & ->)]; [done|].
      by destruct sub.
    + rewrite Hk1. auto.
Qed.

Lemma unnest_no_panic (o : object) (keys : list string) :
  ~ is_panic (unnest o keys).
Proof.
  revert o. induction keys as [|k keys IH]; intros o [p Hp]; simpl in Hp; [done|].
  destruct (get k o) as [[| | | | |next]|]; try discriminate.
  apply (IH next). by exists p.
Qed.

(** *** The path below "types" *)

Lemma packet_mappings_Ok (info mappings : object) :
  packet_mappings info = Ok mappings <-> has_mappings info mappings.
Proof.
  unfold packet_mappings, has_mappings, as_array, as_object, at_index. split.
  - intros Hpm.
    destruct (index info "packet") as [| | | |packet|] eqn:E1; try discriminate.
    simpl in Hpm.
    destruct (packet !! 1%nat) as [[| | | |fields|]|] eqn:E2; try discriminate.
    simpl in Hpm.
    destruct (fields !! 0%nat) as [[| | | | |first]|] eqn:E3; try discriminate.
    simpl in Hpm.
    destruct (index first "type") as [| | | |pType|] eqn:E4; try discriminate.
    simpl in Hpm.
    destruct (pType !! 1%nat) as [[| | | | |switch]|] eqn:E5; try discriminate.
    simpl in Hpm.
    destruct (index switch "mappings") as [| | | | |mp] eqn:E6; try discriminate.
    injection Hpm as ->. by exists packet, fields, first, pType, switch.
  - intros (packet & fields & first & pType & switch &
            -> & Hf & Hfirst & Ht & Hs & Hm). simpl.
    rewrite Hf. simpl. rewrite Hfirst. simpl. rewrite Ht. simpl.
    rewrite Hs. simpl. now rewrite Hm.
Qed.

Lemma packet_mappings_no_Err (info : object) (e : error) :
  packet_mappings info <> Err e.
Proof.
  unfold packet_mappings, as_array, as_object, at_index.
  destruct (index info "packet") as [| | | |packet|]; try discriminate.
  simpl.
  destruct (packet !! 1%nat) as [[| | | |fields|]|]; try discriminate.
  simpl.
  destruct (fields !! 0%nat) as [[| | | | |first]|]; try discriminate.
  simpl.
  destruct (index first "type") as [| | | |pType|]; try discriminate.
  simpl.
  destruct (pType !! 1%nat) as [[| | | | |switch]|]; try discriminate.
  simpl.
  destruct (index switch "mappings") as [| | | | |mp]; discriminate.
Qed.

(** *** The loop over the mappings *)

Lemma mustAtoi_Ok_parses (num : string) :
  parses num = true <-> exists n, mustAtoi num = Ok n.
Proof.
  unfold parses, mustAtoi. destruct (ParseInt num 0 32) as [n [e|]].
  - split; [discriminate | by intros [? ?]].
  - split; [eauto | done].
Qed.

Lemma mustAtoi_no_Err (num : string) (e : error) : mustAtoi num <> Err e.
Proof. unfold mustAtoi. by destruct (ParseInt num 0 32) as [n [?|]]. Qed.

Lemma fill_no_Err (mappings : object) (table : gmap Z string) (e : error) :
  fill table mappings <> Err e.
Proof.
  revert table. induction mappings as [|[k v] rest IH]; intros table; [done|].
  simpl. pose proof (mustAtoi_no_Err k) as Hk.
  destruct (mustAtoi k) as [id|e'|p]; simpl; [|by destruct (Hk e')|done].
  destruct v; simpl; first [apply IH | done].
Qed.

Lemma fill_Ok (mappings : object) (table : gmap Z string) :
  forallb entry_ok mappings = true <-> exists t, fill table mappings = Ok t.
Proof.
  revert table. induction mappings as [|[k v] rest IH]; intros table; simpl.
  - split; eauto.
  - unfold entry_ok at 1. simpl. rewrite !andb_true_iff, mustAtoi_Ok_parses. split.
    + intros [[[id ->] Hv] Hrest]. destruct v; try discriminate. simpl.
      now apply IH.
    + intros [t Ht]. destruct (mustAtoi k) as [id| |]; try discriminate.
      simpl in Ht. destruct v; try discriminate. simpl in Ht.
      split; [eauto|]. apply (IH (<[id := ToCamel s]> table)). eauto.
Qed.

(** *** One direction *)

Lemma unpackDirection_Err (data : object) (gameState direction : string) (e : error) :
  unpackDirection data gameState direction = Err e <->
  path_error data [gameState; direction; "types"] e.
Proof.
  rewrite <- unnest_Err. unfold unpackDirection.
  destruct (unnest data [gameState; direction; "types"]) as [info|e'|p]; simpl;
    [|split; congruence..].
  split; [|done]. intros Hpm.
  pose proof (packet_mappings_no_Err info) as Hno.
  destruct (packet_mappings info) as [mp|e'|p]; simpl in Hpm;
    [|by destruct (Hno e')|done].
  by apply fill_no_Err in Hpm.
Qed.

Lemma unpackDirection_Ok (data : object) (gameState direction : string)
    (t : gmap Z string) :
  unpackDirection data gameState direction = Ok t <->
  extracts data gameState direction t.
Proof.
  unfold unpackDirection, extracts. split.
  - intros Hun.
    destruct (unnest data [gameState; direction; "types"]) as [info| |] eqn:Hinfo;
      try discriminate.
    simpl in Hun.
    destruct (packet_mappings info) as [mp| |] eqn:Hmp; try discriminate.
    simpl in Hun. exists info, mp.
    split; [by apply unnest_Ok|]. split; [by apply packet_mappings_Ok|].
    split; [|done]. apply (fill_Ok mp ∅). eauto.
  - intros (info & mp & Hinfo & Hmp & _ & Hfill).
    apply unnest_Ok in Hinfo. apply packet_mappings_Ok in Hmp.
    rewrite Hinfo. simpl. now rewrite Hmp.
Qed.

Lemma unpackDirection_Panic (data : object) (gameState direction : string)
    (info : object) :
  reaches data [gameState; direction; "types"] info -> defective info ->
  is_panic (unpackDirection data gameState direction).
Proof.
  intros Hinfo Hdef. unfold unpackDirection.
  apply unnest_Ok in Hinfo. rewrite Hinfo. simpl.
  pose proof (packet_mappings_no_Err info) as Hno.
  destruct (packet_mappings info) as [mp|e|p] eqn:Hmp; simpl;
    [|by destruct (Hno e)|by exists p].
  apply packet_mappings_Ok in Hmp. apply Hdef in Hmp.
  pose proof (fill_no_Err mp ∅) as Hfe.
  destruct (fill ∅ mp) as [t|e|p] eqn:Hfill; [|by destruct (Hfe e)|by exists p].
  assert (forallb entry_ok mp = true) as Hok by (apply (fill_Ok mp ∅); eauto).
  congruence.
Qed.

Lemma unpackDirection_Panic_inv (data : object) (gameState direction : string) :
  is_panic (unpackDirection data gameState direction) ->
  exists info, reaches data [gameState; direction; "types"] info /\ defective info.
Proof.
  intros [p Hp]. unfold unpackDirection in Hp.
  destruct (unnest data [gameState; direction; "types"]) as [info|e|p'] eqn:Hinfo;
    [|done|].
  - exists info. split; [by apply unnest_Ok|]. intros mp Hmp.
    apply packet_mappings_Ok in Hmp. simpl in Hp. rewrite Hmp in Hp. simpl in Hp.
    destruct (forallb entry_ok mp) eqn:Hok; [|done].
    apply (fill_Ok mp ∅) in Hok as [t Ht]. congruence.
  - destruct (unnest_no_panic data [gameState; direction; "types"]). by exists p'.
Qed.

(** *** mustAtoi on the three forms of a key *)

Import StrconvFacts.

Lemma mustAtoi_unsigned (c : ascii) (s body : string) (b v : Z) :
  is_sign c = false -> base_prefix (String c s) = (b, body) -> 2 <= b <= 36 ->
  numeral b body 0 = Some v ->
  mustAtoi (String c s) =
    if v <? 2 ^ 31 then Ok v else Panic (ParsePanic (String c s) ErrRange).
Proof.
  intros Hc Hpre Hb Hv. unfold mustAtoi.
  rewrite (ParseInt_unsigned _ _ _ _ _ Hc Hpre Hb Hv).
  assert (0 <= v) by (apply (numeral_nonneg b body); [lia | done]).
  destruct (Z.ltb_spec v (2 ^ 31)); [|done]. by rewrite to_int32_small by lia.
Qed.

Lemma mustAtoi_negative (s body : string) (b v : Z) :
  s <> "" -> base_prefix s = (b, body) -> 2 <= b <= 36 ->
  numeral b body 0 = Some v ->
  mustAtoi (String "-" s) =
    if v <=? 2 ^ 31 then Ok (- v) else Panic (ParsePanic (String "-" s) ErrRange).
Proof.
  intros Hs Hpre Hb Hv. unfold mustAtoi.
  rewrite (ParseInt_negative _ _ _ _ Hs Hpre Hb Hv).
  assert (0 <= v) by (apply (numeral_nonneg b body); [lia | done]).
  destruct (Z.leb_spec v (2 ^ 31)); [|done]. by rewrite to_int32_small by lia.
Qed.

Lemma mustAtoi_decimal (s : string) (v : Z) :
  starts_nonzero_digit s = true -> numeral 10 s 0 = Some v ->
  mustAtoi s = if v <? 2 ^ 31 then Ok v else Panic (ParsePanic s ErrRange).
Proof.
  intros Hs Hv. destruct (base_prefix_decimal _ Hs) as [Hpre (c & rest & -> & Hc)].
  apply (mustAtoi_unsigned _ _ _ _ _ Hc Hpre); [lia | done].
Qed.

Lemma mustAtoi_negative_decimal (s : string) (v : Z) :
  starts_nonzero_digit s = true -> numeral 10 s 0 = Some v ->
  mustAtoi (String "-" s) =
    if v <=? 2 ^ 31 then Ok (- v) else Panic (ParsePanic (String "-" s) ErrRange).
Proof.
  intros Hs Hv. destruct (base_prefix_decimal _ Hs) as [Hpre (c & rest & -> & Hc)].
  apply (mustAtoi_negative (String c rest) (String c rest) 10 v);
    [discriminate | exact Hpre | lia | done].
Qed.

Lemma mustAtoi_hexadecimal (x : ascii) (s : string) (v : Z) :
  lower x = 120 -> s <> "" -> numeral 16 s 0 = Some v ->
  mustAtoi (String "0" (String x s)) =
    if v <? 2 ^ 31 then Ok v
    else Panic (ParsePanic (String "0" (String x s)) ErrRange).
Proof.
  intros Hx Hs Hv. destruct s as [|c rest]; [done|].
  apply (mustAtoi_unsigned "0" (String x (String c rest)) (String c rest) 16 v);
    [reflexivity | by apply base_prefix_hex | lia | done].
Qed.

Lemma mustAtoi_octal (s : string) (v : Z) :
  numeral 8 s 0 = Some v ->
  mustAtoi (String "0" s) =
    if v <? 2 ^ 31 then Ok v else Panic (ParsePanic (String "0" s) ErrRange).
Proof.
  intros Hv.
  apply (mustAtoi_unsigned "0" s s 8 v);
    [reflexivity | by apply (base_prefix_octal s v) | lia | done].
Qed.

Lemma mustAtoi_Ok_int32 (s : string) (n : Z) :
  mustAtoi s = Ok n -> ParseInt s 0 32 = (n, None) /\ - 2 ^ 31 <= n < 2 ^ 31.
Proof.
  unfold mustAtoi. destruct (ParseInt s 0 32) as [z [e|]] eqn:Hp; [done|].
  intros [= <-]. apply ParseInt_int32 in Hp.
  rewrite to_int32_small by exact Hp. done.
Qed.

End ExtractorFacts.

(** *** The claims about the extractor *)

Module ExtractorSpec.

Import Disambiguator DisambiguatorFacts Strconv Strcase Extractor ExtractorFacts.
Import Fixtures.

(** C2, as stated, fails: a mapping key "abc" makes unpackMapping panic, and
    so does a document without "packet" below "types"; in both cases it
    returns neither a StateMapping nor an error. *)
Lemma unpackMapping_panics :
  unpackMapping bad_key_doc "play" = Panic (ParsePanic "abc" ErrSyntax) /\
  unpackMapping no_packet_doc "play" = Panic (FailedAssertion JNull).
Proof. split; reflexivity. Qed.

(** C2, amended: unpackMapping returns a StateMapping, returns an error, or
    panics, and never a partial result. It returns a StateMapping when the
    document holds both tables. It returns an error when one of the keys
    state, "toClient" or "toServer", "types" is absent (NotFound) or has a
    value that is not a string map (TypeMismatch), clientbound path first,
    and these are its only errors. It panics when the document is defective
    below "types": a value of another shape than expected, a mapping key that
    is no integer literal, or a name that is no string. *)
Theorem unpackMapping_outcomes (data : object) (gameState : string) :
  match unpackMapping data gameState with
  | Ok m =>
      extracts data gameState "toClient" (Clientbound m) /\
      extracts data gameState "toServer" (Serverbound m)
  | Err e =>
      path_error data [gameState; "toClient"; "types"] e \/
      path_error data [gameState; "toServer"; "types"] e
  | Panic p =>
      exists direction info,
        direction ∈ ["toClient"; "toServer"] /\
        reaches data [gameState; direction; "types"] info /\ defective info
  end /\
  (forall e, path_error data [gameState; "toClient"; "types"] e ->
     unpackMapping data gameState = Err e) /\
  (forall t e, extracts data gameState "toClient" t ->
     path_error data [gameState; "toServer"; "types"] e ->
     unpackMapping data gameState = Err e) /\
  (forall info, reaches data [gameState; "toClient"; "types"] info ->
     defective info -> is_panic (unpackMapping data gameState)) /\
  (forall t info, extracts data gameState "toClient" t ->
     reaches data [gameState; "toServer"; "types"] info ->
     defective info -> is_panic (unpackMapping data gameState)) /\
  (forall c s, extracts data gameState "toClient" c ->
     extracts data gameState "toServer" s ->
     unpackMapping data gameState = Ok {| Clientbound := c; Serverbound := s |}).
Proof.
  unfold unpackMapping. repeat split.
  - destruct (unpackDirection data gameState "toClient") as [c|e|p] eqn:Hc; simpl.
    + destruct (unpackDirection data gameState "toServer") as [s|e|p] eqn:Hs; simpl.
      * split; by apply unpackDirection_Ok.
      * right. by apply unpackDirection_Err.
      * destruct (unpackDirection_Panic_inv data gameState "toServer")
          as (info & Hinfo & Hdef); [rewrite Hs; by exists p|].
        exists "toServer", info. split; [set_solver | done].
    + left. by apply unpackDirection_Err.
    + destruct (unpackDirection_Panic_inv data gameState "toClient")
        as (info & Hinfo & Hdef); [rewrite Hc; by exists p|].
      exists "toClient", info. split; [set_solver | done].
  - intros e He. apply unpackDirection_Err in He. now rewrite He.
  - intros t e Ht He. apply unpackDirection_Ok in Ht.
    apply unpackDirection_Err in He. rewrite Ht. simpl. now rewrite He.
  - intros info Hinfo Hdef.
    destruct (unpackDirection_Panic _ _ _ _ Hinfo Hdef) as [p ->]. by exists p.
  - intros t info Ht Hinfo Hdef. apply unpackDirection_Ok in Ht. rewrite Ht. simpl.
    destruct (unpackDirection_Panic _ _ _ _ Hinfo Hdef) as [p ->]. by exists p.
  - intros c s Hc Hs. apply unpackDirection_Ok in Hc, Hs. rewrite Hc. simpl.
    now rewrite Hs.
Qed.

(** The theorem at the document without "toClient": the error names the key. *)
Lemma unpackMapping_outcomes_witness :
  unpackMapping no_toClient_doc "play" = Err (NotFound "toClient").
Proof.
  apply (unpackMapping_outcomes no_toClient_doc "play").
  exists ["play"], "toClient", ["types"],
    [("toServer", packet_type [("0x00", "chat")])].
  split; [reflexivity|]. split.
  - eapply reaches_cons; [reflexivity | constructor].
  - left. split; reflexivity.
Defined.

(** C5: for the document whose state "play" maps the clientbound key "0x00"
    to "spawn_entity" and the serverbound key "0x00" to "chat", unpackMapping
    returns Clientbound={0:"SpawnEntity"}, Serverbound={0:"Chat"}, the names
    being the camel-case forms of the raw ones, and EnsureUniqueNames then
    leaves both tables unchanged. *)
Theorem unpackMapping_play_fixture (m' : duplexMappings) :
  runs_to play_tables m' ->
  unpackMapping play_fixture "play" = Ok play_tables /\
  ToCamel "spawn_entity" = "SpawnEntity" /\ ToCamel "chat" = "Chat" /\
  m' = play_tables.
Proof.
  intros Hrun. repeat split; try reflexivity.
  apply (run_noop play_tables); [|exact Hrun].
  intros n [[k Hk] [k' Hk']]. simpl in Hk, Hk'.
  apply lookup_singleton_Some in Hk as [_ <-].
  apply lookup_singleton_Some in Hk' as [_ Hk']. discriminate.
Qed.

Lemma unpackMapping_play_fixture_witness :
  unpackMapping play_fixture "play" = Ok play_tables /\
  ToCamel "spawn_entity" = "SpawnEntity" /\ ToCamel "chat" = "Chat" /\
  EnsureUniqueNames_default play_tables = play_tables.
Proof.
  apply (unpackMapping_play_fixture (EnsureUniqueNames_default play_tables)).
  exists (map_to_list (Clientbound play_tables)), (map_to_list (Serverbound play_tables)).
  split; [apply range_order_default|].
  split; [apply range_order_default | reflexivity].
Defined.

(** C7: the keys "0", "0x0" and "0X00" all parse to 0; a decimal numeral
    and a hexadecimal numeral after "0x" or "0X" parse to the number they
    denote, when it is below 2^31. *)
Theorem mustAtoi_decimal_and_hexadecimal (s : string) (v : Z) :
  v < 2 ^ 31 ->
  (mustAtoi "0" = Ok 0 /\ mustAtoi "0x0" = Ok 0 /\ mustAtoi "0X00" = Ok 0) /\
  (starts_nonzero_digit s = true -> numeral 10 s 0 = Some v ->
   mustAtoi s = Ok v) /\
  (s <> "" -> numeral 16 s 0 = Some v ->
   mustAtoi ("0x" +:+ s) = Ok v /\ mustAtoi ("0X" +:+ s) = Ok v).
Proof.
  intros Hv. split; [repeat split; reflexivity|]. split.
  - intros Hs Hn. rewrite (mustAtoi_decimal _ _ Hs Hn).
    destruct (Z.ltb_spec v (2 ^ 31)); [done | lia].
  - intros Hs Hn. change ("0x" +:+ s) with (String "0" (String "x" s)).
    change ("0X" +:+ s) with (String "0" (String "X" s)).
    rewrite (mustAtoi_hexadecimal "x" s v eq_refl Hs Hn).
    rewrite (mustAtoi_hexadecimal "X" s v eq_refl Hs Hn).
    destruct (Z.ltb_spec v (2 ^ 31)); [done | lia].
Qed.

Lemma mustAtoi_decimal_and_hexadecimal_witness :
  mustAtoi "3" = Ok 3 /\ mustAtoi "0x3" = Ok 3 /\ mustAtoi "0X3" = Ok 3.
Proof.
  destruct (mustAtoi_decimal_and_hexadecimal "3" 3) as (_ & Hdec & Hhex); [lia|].
  split; [apply Hdec; reflexivity|]. apply Hhex; [discriminate | reflexivity].
Defined.

(** The error of the state "login" is labelled "login". *)
Lemma downloadInfo_login_error (visit : visits) (data : object) (e : error) :
  unpackMapping data "login" = Err e ->
  downloadInfo visit data = Err (Labelled "login" e).
Proof. intros Hl. unfold downloadInfo. now rewrite Hl. Qed.

(** The error of the state "play" is labelled "play". *)
Lemma downloadInfo_play_error (visit : visits) (data : object)
    (login : duplexMappings) (e : error) :
  unpackMapping data "login" = Ok login -> unpackMapping data "play" = Err e ->
  downloadInfo visit data = Err (Labelled "play" e).
Proof. intros Hl Hp. unfold downloadInfo. now rewrite Hl, Hp. Qed.

(** C8 fails on the code for the state "status": when the extraction of
    "login" and "play" succeeds and that of "status" returns an error,
    downloadInfo reports the error under the label "play". *)
Theorem downloadInfo_status_error (visit : visits) (data : object)
    (login play : duplexMappings) (e : error) :
  unpackMapping data "login" = Ok login -> unpackMapping data "play" = Ok play ->
  unpackMapping data "status" = Err e ->
  downloadInfo visit data = Err (Labelled "play" e).
Proof. intros Hl Hp Hs. unfold downloadInfo. now rewrite Hl, Hp, Hs. Qed.

Lemma downloadInfo_status_error_witness :
  downloadInfo (fun _ _ => []) broken_status_doc
    = Err (Labelled "play" (NotFound "toClient")).
Proof.
  eapply (downloadInfo_status_error _ broken_status_doc); reflexivity.
Defined.

(** C10: mustAtoi parses with base 0 and 32 bits. "010" is the octal
    numeral of 8 and "-1" is accepted as -1; a key "0" followed by octal
    digits, a decimal numeral and a decimal numeral after "-" parse to the
    number they denote when it is an int32, and make mustAtoi panic with a
    range error when it is not; mustAtoi never returns an error, and what it
    returns is what ParseInt returned, within the int32 range. *)
Theorem mustAtoi_base0_int32 (s : string) (v : Z) :
  (mustAtoi "010" = Ok 8 /\ mustAtoi "-1" = Ok (-1) /\
   mustAtoi "2147483648" = Panic (ParsePanic "2147483648" ErrRange) /\
   mustAtoi "-2147483649" = Panic (ParsePanic "-2147483649" ErrRange)) /\
  (numeral 8 s 0 = Some v ->
   mustAtoi (String "0" s) =
     if v <? 2 ^ 31 then Ok v else Panic (ParsePanic (String "0" s) ErrRange)) /\
  (starts_nonzero_digit s = true -> numeral 10 s 0 = Some v ->
   mustAtoi s = (if v <? 2 ^ 31 then Ok v else Panic (ParsePanic s ErrRange)) /\
   mustAtoi (String "-" s) =
     (if v <=? 2 ^ 31 then Ok (- v)
      else Panic (ParsePanic (String "-" s) ErrRange))) /\
  (forall e, mustAtoi s <> Err e) /\
  (forall n, mustAtoi s = Ok n ->
     ParseInt s 0 32 = (n, None) /\ - 2 ^ 31 <= n < 2 ^ 31).
Proof.
  split; [repeat split; reflexivity|].
  split; [apply mustAtoi_octal|].
  split; [intros Hs Hv; split;
          [by apply mustAtoi_decimal | by apply mustAtoi_negative_decimal]|].
  split; [apply mustAtoi_no_Err | apply mustAtoi_Ok_int32].
Qed.

(** The theorem at the digits "17": octal after "0", decimal as they are. *)
Lemma mustAtoi_base0_int32_witness :
  mustAtoi "017" = Ok 15 /\ mustAtoi "17" = Ok 17 /\ mustAtoi "-17" = Ok (-17).
Proof.
  destruct (mustAtoi_base0_int32 "17" 15) as (_ & Hoct & _).
  destruct (mustAtoi_base0_int32 "17" 17) as (_ & _ & Hdec & _).
  split; [apply Hoct; reflexivity|].
  destruct Hdec as [Hpos Hneg]; [reflexivity..|]. split; [exact Hpos | exact Hneg].
Defined.

End ExtractorSpec.

(** ** Further properties of the disambiguator *)

Module DisambiguatorMore.

Import Disambiguator DisambiguatorFacts Fixtures Coverage.

Lemma server_any_order (m m1 m2 : duplexMappings) :
  runs_to m m1 -> runs_to m m2 -> Serverbound m1 = Serverbound m2.
Proof.
  intros (c1 & s1 & Hc1 & Hs1 & ->) (c2 & s2 & Hc2 & Hs2 & ->).
  apply map_eq. intros k.
  destruct (Serverbound m !! k) as [n|] eqn:Hk.
  - destruct (reverse_index c1 !! n) as [ck|] eqn:Hn.
    + assert (has_name (Clientbound m) n) as Hcn
        by (apply (index_has_name _ _ Hc1); eauto).
      rewrite (run_server_renamed _ _ _ Hc1 Hs1 _ _ Hk Hcn).
      now rewrite (run_server_renamed _ _ _ Hc2 Hs2 _ _ Hk Hcn).
    + assert (~ has_name (Clientbound m) n) as Hcn.
      { rewrite <- (index_has_name _ _ Hc1), Hn. now intros [? ?]. }
      rewrite (run_server_kept _ _ _ Hc1 Hs1 _ _ Hk Hcn).
      now rewrite (run_server_kept _ _ _ Hc2 Hs2 _ _ Hk Hcn).
  - rewrite (run_server_None _ c1 _ Hs1 _ Hk).
    now rewrite (run_server_None _ c2 _ Hs2 _ Hk).
Qed.

(** With distinct clientbound names the index binds a name to its entry. *)
Lemma index_of_distinct (m : duplexMappings) (cvisit : list (Z * string)) k n :
  distinct_names (Clientbound m) -> range_order (Clientbound m) cvisit ->
  Clientbound m !! k = Some n -> reverse_index cvisit !! n = Some k.
Proof.
  intros Hd Hc Hk.
  assert (is_Some (reverse_index cvisit !! n)) as [ck Hck]
    by (apply (index_has_name _ _ Hc); by exists k).
  pose proof (index_entry _ _ Hc _ _ Hck) as Hck'.
  now rewrite (Hd _ _ _ Hk Hck').
Qed.

Lemma client_any_order (m m1 m2 : duplexMappings) :
  distinct_names (Clientbound m) ->
  runs_to m m1 -> runs_to m m2 -> Clientbound m1 = Clientbound m2.
Proof.
  intros Hd (c1 & s1 & Hc1 & Hs1 & ->) (c2 & s2 & Hc2 & Hs2 & ->).
  apply map_eq. intros k.
  destruct (Clientbound m !! k) as [n|] eqn:Hk.
  - pose proof (index_of_distinct _ _ _ _ Hd Hc1 Hk) as Hi1.
    pose proof (index_of_distinct _ _ _ _ Hd Hc2 Hk) as Hi2.
    destruct (decide (n ∈ s1.*2)) as [Hin|Hin].
    + apply (visited_has_name _ _ Hs1) in Hin.
      rewrite (run_client_renamed _ _ _ Hc1 Hs1 _ _ Hi1 Hin).
      now rewrite (run_client_renamed _ _ _ Hc2 Hs2 _ _ Hi2 Hin).
    + rewrite (visited_has_name _ _ Hs1) in Hin.
      rewrite (run_client_kept _ _ _ Hc1 Hs1 _ _ Hk) by (by right).
      now rewrite (run_client_kept _ _ _ Hc2 Hs2 _ _ Hk) by (by right).
  - rewrite (run_client_None _ _ s1 Hc1 _ Hk).
    now rewrite (run_client_None _ _ s2 Hc2 _ Hk).
Qed.

Lemma two_states_distinct : distinct_names (Clientbound two_states).
Proof.
  intros i j n Hi Hj. simpl in Hi, Hj.
  apply lookup_insert_Some in Hi as [[<- <-]|[_ Hi]];
    apply lookup_insert_Some in Hj as [[<- Hj]|[_ Hj]];
    try apply lookup_singleton_Some in Hi as [<- <-];
    try apply lookup_singleton_Some in Hj as [<- Hj];
    done.
Qed.

(** X1: the serverbound table that EnsureUniqueNames produces does not
    depend on the orders in which the two maps are visited. *)
Theorem EnsureUniqueNames_serverbound_any_order (m m1 m2 : duplexMappings) :
  runs_to m m1 -> runs_to m m2 -> Serverbound m1 = Serverbound m2.
Proof. apply server_any_order. Qed.

Lemma EnsureUniqueNames_serverbound_any_order_witness :
  Serverbound (EnsureUniqueNames [(1, "Chat"); (2, "Chat")] [(3, "Chat")]
                 twice_clientbound)
  = Serverbound (EnsureUniqueNames [(2, "Chat"); (1, "Chat")] [(3, "Chat")]
                   twice_clientbound).
Proof.
  apply (EnsureUniqueNames_serverbound_any_order twice_clientbound).
  - exists [(1, "Chat"); (2, "Chat")], [(3, "Chat")].
    split; [unfold range_order; vm_compute; apply perm_swap|].
    split; [unfold range_order; reflexivity | reflexivity].
  - exists [(2, "Chat"); (1, "Chat")], [(3, "Chat")].
    split; [unfold range_order; reflexivity|].
    split; [unfold range_order; reflexivity | reflexivity].
Defined.

(** X2: when the clientbound names are pairwise distinct, the result of
    EnsureUniqueNames does not depend on the visiting orders: every call on
    the same tables produces the same tables. *)
Theorem EnsureUniqueNames_deterministic (m m1 m2 : duplexMappings) :
  distinct_names (Clientbound m) -> runs_to m m1 -> runs_to m m2 -> m1 = m2.
Proof.
  intros Hd Hr1 Hr2. apply duplex_eq.
  - now apply (client_any_order m).
  - now apply (server_any_order m).
Qed.

Lemma EnsureUniqueNames_deterministic_witness :
  EnsureUniqueNames [(1, "Chat"); (0, "KeepAlive")]
    [(1, "ClientSettings"); (0, "KeepAlive")] two_states
  = EnsureUniqueNames [(0, "KeepAlive"); (1, "Chat")]
      [(0, "KeepAlive"); (1, "ClientSettings")] two_states.
Proof.
  apply (EnsureUniqueNames_deterministic two_states).
  - exact two_states_distinct.
  - eexists _, _. split; [|split; [|reflexivity]];
      unfold range_order; vm_compute;
      first [reflexivity | apply perm_swap].
  - eexists _, _. split; [|split; [|reflexivity]];
      unfold range_order; vm_compute;
      first [reflexivity | apply perm_swap].
Defined.

(** X3: every name that is in both tables is renamed: a call puts the suffix
    "Serverbound" on every serverbound entry that carries it, and the suffix
    "Clientbound" on a clientbound entry that carries it. *)
Theorem EnsureUniqueNames_renames_shared (m m' : duplexMappings) (n : string) :
  runs_to m m' -> shared m n ->
  (forall k, Serverbound m !! k = Some n ->
     Serverbound m' !! k = Some (n +:+ "Serverbound")) /\
  (exists k, Clientbound m !! k = Some n /\
     Clientbound m' !! k = Some (n +:+ "Clientbound")).
Proof.
  intros (cvisit & svisit & Hc & Hs & ->) [Hcn Hsn]. split.
  - intros k Hk. now apply (run_server_renamed _ _ _ Hc Hs).
  - assert (is_Some (reverse_index cvisit !! n)) as [ck Hck]
      by now apply (index_has_name _ _ Hc).
    exists ck. split; [by apply (index_entry _ _ Hc)|].
    now apply (run_client_renamed _ _ _ Hc Hs).
Qed.

Lemma EnsureUniqueNames_renames_shared_witness :
  (forall k, Serverbound two_states !! k = Some "KeepAlive" ->
     Serverbound two_states_out !! k = Some "KeepAliveServerbound") /\
  (exists k, Clientbound two_states !! k = Some "KeepAlive" /\
     Clientbound two_states_out !! k = Some "KeepAliveClientbound").
Proof.
  apply (EnsureUniqueNames_renames_shared two_states two_states_out "KeepAlive").
  - exists (map_to_list (Clientbound two_states)),
      (map_to_list (Serverbound two_states)).
    split; [apply range_order_default|].
    split; [apply range_order_default | vm_compute; reflexivity].
  - split; exists 0; reflexivity.
Defined.

(** X4: a call changes names only by its suffixes, and only shared names:
    every clientbound entry of the result is the entry of the input under
    the same ID, with its name or, if the name is shared, its name followed
    by "Clientbound"; every serverbound entry of the result is the entry of
    the input under the same ID, with its name if no clientbound entry
    carries it and its name followed by "Serverbound" otherwise. *)
Theorem EnsureUniqueNames_only_suffixes (m m' : duplexMappings) :
  runs_to m m' ->
  (forall k x, Clientbound m' !! k = Some x ->
     exists n, Clientbound m !! k = Some n /\
       (x = n \/ (x = n +:+ "Clientbound" /\ shared m n))) /\
  (forall k x, Serverbound m' !! k = Some x ->
     exists n, Serverbound m !! k = Some n /\
       ((x = n /\ ~ has_name (Clientbound m) n) \/
        (x = n +:+ "Serverbound" /\ shared m n))).
Proof.
  intros (cvisit & svisit & Hc & Hs & ->). split.
  - apply (run_client_inv _ _ _ Hc Hs).
  - apply (run_server_inv _ _ _ Hc Hs).
Qed.

Lemma EnsureUniqueNames_only_suffixes_witness :
  exists n, Serverbound two_states !! 0 = Some n /\
    (("KeepAliveServerbound" = n /\ ~ has_name (Clientbound two_states) n) \/
     ("KeepAliveServerbound" = n +:+ "Serverbound" /\ shared two_states n)).
Proof.
  apply (EnsureUniqueNames_only_suffixes two_states two_states_out).
  - exists (map_to_list (Clientbound two_states)),
      (map_to_list (Serverbound two_states)).
    split; [apply range_order_default|].
    split; [apply range_order_default | vm_compute; reflexivity].
  - reflexivity.
Defined.

End DisambiguatorMore.

(** ** Further properties of the extractor *)

Module ExtractorMore.

Import Disambiguator DisambiguatorFacts Strconv Strcase Extractor ExtractorFacts.
Import Fixtures Coverage.

(** *** unnest *)

Lemma unnest_app (o : object) (pre post : list string) :
  unnest o (pre ++ post) = bind (unnest o pre) (fun o' => unnest o' post).
Proof.
  revert o. induction pre as [|k pre IH]; intros o; simpl; [done|].
  destruct (get k o) as [[| | | | |next]|]; first [apply IH | done].
Qed.

(** X5: unnest returns the object [o'] exactly when each key of the path, in
    turn, is present with an object as its value, the last being [o']; it
    returns an error exactly when the walk stops at a key, NotFound if the
    key is absent and TypeMismatch if its value is not an object, and the
    error names that first key; it never panics. *)
Theorem unnest_spec (o : object) (keys : list string) :
  (forall o', unnest o keys = Ok o' <-> reaches o keys o') /\
  (forall e, unnest o keys = Err e <-> path_error o keys e) /\
  ~ is_panic (unnest o keys).
Proof.
  split; [intros o'; apply unnest_Ok|].
  split; [intros e; apply unnest_Err | apply unnest_no_panic].
Qed.

(** X6: walking a path in two parts is walking it whole: unnest on
    [pre ++ post] is unnest on [pre] followed by unnest on [post] from the
    object reached, and an error of the first part is the error of the
    whole. *)
Theorem unnest_in_two_parts (o : object) (pre post : list string) :
  unnest o (pre ++ post) =
    match unnest o pre with
    | Ok o' => unnest o' post
    | Err e => Err e
    | Panic p => Panic p
    end.
Proof. apply unnest_app. Qed.

(** *** The loop over the mappings *)

Lemma fill_app (a b : object) (table : gmap Z string) :
  fill table (a ++ b) = bind (fill table a) (fun t => fill t b).
Proof.
  revert table. induction a as [|[k v] a IH]; intros table; simpl; [done|].
  destruct (mustAtoi k) as [id| |]; simpl; [|done..].
  destruct (as_string v) as [name| |]; simpl; [|done..]. apply IH.
Qed.

(** An ID that no key of the mappings denotes keeps its entry. *)
Lemma fill_untouched (mappings : object) (table table' : gmap Z string) (id : Z) :
  fill table mappings = Ok table' ->
  (forall k v, (k, v) ∈ mappings -> mustAtoi k <> Ok id) ->
  table' !! id = table !! id.
Proof.
  revert table. induction mappings as [|[k v] rest IH]; intros table Hfill Hid;
    simpl in Hfill.
  - by injection Hfill as ->.
  - destruct (mustAtoi k) as [id'| |] eqn:Hk; [|done..]. simpl in Hfill.
    destruct (as_string v) as [name| |]; [|done..]. simpl in Hfill.
    rewrite (IH _ Hfill) by (intros k' v' Hin; apply (Hid k' v'); set_solver).
    apply lookup_insert_ne. intros ->. apply (Hid k v); [set_solver | done].
Qed.

(** The entry of an ID comes from the last key that denotes it. *)
Lemma fill_last (pre post : object) (k name : string)
    (table table' : gmap Z string) (id : Z) :
  fill table (pre ++ (k, JString name) :: post) = Ok table' ->
  mustAtoi k = Ok id ->
  (forall k' v', (k', v') ∈ post -> mustAtoi k' <> Ok id) ->
  table' !! id = Some (ToCamel name).
Proof.
  intros Hfill Hk Hpost. rewrite fill_app in Hfill.
  destruct (fill table pre) as [t1| |]; [|done..]. simpl in Hfill.
  rewrite Hk in Hfill. simpl in Hfill.
  rewrite (fill_untouched _ _ _ _ Hfill Hpost). apply lookup_insert_eq.
Qed.

(** Every entry of the result was in the table or comes from a mapping. *)
Lemma fill_lookup (mappings : object) (table table' : gmap Z string)
    (id : Z) (x : string) :
  fill table mappings = Ok table' -> table' !! id = Some x ->
  table !! id = Some x \/
  exists k name, (k, JString name) ∈ mappings /\ mustAtoi k = Ok id /\
                 x = ToCamel name.
Proof.
  revert table. induction mappings as [|[k v] rest IH]; intros table Hfill Hx;
    simpl in Hfill.
  - injection Hfill as ->. by left.
  - destruct (mustAtoi k) as [id'| |] eqn:Hk; [|done..]. simpl in Hfill.
    destruct v as [| | |name| |]; try done. simpl in Hfill.
    destruct (IH _ Hfill Hx) as [Hin|(k' & name' & Hin & Hk' & ->)].
    + apply lookup_insert_Some in Hin as [[<- <-]|[_ Hin]]; [|by left].
      right. exists k, name. split; [set_solver | done].
    + right. exists k', name'. split; [set_solver | done].
Qed.

(** An ID that has an entry keeps one. *)
Lemma fill_keeps (mappings : object) (table table' : gmap Z string) (id : Z) :
  fill table mappings = Ok table' -> is_Some (table !! id) ->
  is_Some (table' !! id).
Proof.
  revert table. induction mappings as [|[k v] rest IH]; intros table Hfill Hid;
    simpl in Hfill.
  - by injection Hfill as <-.
  - destruct (mustAtoi k) as [id'| |]; [|done..]. simpl in Hfill.
    destruct (as_string v) as [name| |]; [|done..]. simpl in Hfill.
    apply (IH _ Hfill). rewrite lookup_insert. case_decide; [eauto | done].
Qed.

(** Every key of the mappings has an entry in the result. *)
Lemma fill_covers (mappings : object) (table table' : gmap Z string)
    (k : string) (v : json) :
  fill table mappings = Ok table' -> (k, v) ∈ mappings ->
  exists id, mustAtoi k = Ok id /\ is_Some (table' !! id).
Proof.
  intros Hfill Hin. apply list_elem_of_split in Hin as (pre & post & ->).
  rewrite fill_app in Hfill.
  destruct (fill table pre) as [t1| |]; [|done..]. simpl in Hfill.
  destruct (mustAtoi k) as [id| |] eqn:Hk; [|done..]. simpl in Hfill.
  destruct (as_string v) as [name| |]; [|done..]. simpl in Hfill.
  exists id. split; [done|]. apply (fill_keeps _ _ _ _ Hfill).
  rewrite lookup_insert_eq. eauto.
Qed.

(** *** The tables of unpackMapping *)

Lemma reaches_functional (o o1 o2 : object) (keys : list string) :
  reaches o keys o1 -> reaches o keys o2 -> o1 = o2.
Proof. intros H1 H2. apply unnest_Ok in H1, H2. congruence. Qed.

Lemma has_mappings_functional (info mp1 mp2 : object) :
  has_mappings info mp1 -> has_mappings info mp2 -> mp1 = mp2.
Proof. intros H1 H2. apply packet_mappings_Ok in H1, H2. congruence. Qed.

Lemma unpackMapping_Ok_inv (data : object) (gameState : string)
    (m : duplexMappings) :
  unpackMapping data gameState = Ok m ->
  unpackDirection data gameState "toClient" = Ok (Clientbound m) /\
  unpackDirection data gameState "toServer" = Ok (Serverbound m).
Proof.
  unfold unpackMapping. intros Hm.
  destruct (unpackDirection data gameState "toClient") as [c| |]; [|done..].
  simpl in Hm.
  destruct (unpackDirection data gameState "toServer") as [s| |]; [|done..].
  simpl in Hm. by injection Hm as <-.
Qed.

(** The table of a direction is what the loop makes of its mappings. *)
Lemma table_of_mappings (data : object) (gameState : string) (m : duplexMappings)
    (direction : string) (table : gmap Z string) (mappings : object) :
  unpackMapping data gameState = Ok m ->
  (direction, table) ∈ direction_tables m ->
  mappings_of data gameState direction mappings ->
  fill ∅ mappings = Ok table.
Proof.
  intros Hm Hin (info & Hinfo & Hmp).
  destruct (unpackMapping_Ok_inv _ _ _ Hm) as [Hc Hs].
  assert (unpackDirection data gameState direction = Ok table) as Hdir.
  { unfold direction_tables in Hin.
    apply elem_of_cons in Hin as [[= -> ->]|Hin]; [done|].
    apply list_elem_of_singleton in Hin as [= -> ->]. done. }
  apply unpackDirection_Ok in Hdir as (info' & mp' & Hinfo' & Hmp' & _ & Hfill).
  rewrite (reaches_functional _ _ _ _ Hinfo Hinfo') in Hmp.
  now rewrite (has_mappings_functional _ _ _ Hmp Hmp').
Qed.

(** Proves [mappings_of] for a document given in full. *)
Ltac walk_document :=
  eexists; split;
  [repeat (eapply reaches_cons; [reflexivity|]); apply reaches_nil
  |do 5 eexists; repeat split; reflexivity].

(** X7: the tables that unpackMapping returns hold the mappings of the
    document and nothing else: every key of a mappings object is an integer
    literal whose ID has an entry in the table of its direction, and every
    entry of the table carries the camel-case form of a raw name that the
    mappings give under a key that denotes its ID. *)
Theorem unpackMapping_entries (data : object) (gameState : string)
    (m : duplexMappings) (direction : string) (table : gmap Z string)
    (mappings : object) :
  unpackMapping data gameState = Ok m ->
  (direction, table) ∈ direction_tables m ->
  mappings_of data gameState direction mappings ->
  (forall k v, (k, v) ∈ mappings ->
     exists id, mustAtoi k = Ok id /\ is_Some (table !! id)) /\
  (forall id x, table !! id = Some x ->
     exists k name, (k, JString name) ∈ mappings /\ mustAtoi k = Ok id /\
                    x = ToCamel name).
Proof.
  intros Hm Hin Hmp. pose proof (table_of_mappings _ _ _ _ _ _ Hm Hin Hmp) as Hfill.
  split.
  - intros k v Hkv. exact (fill_covers _ _ _ _ _ Hfill Hkv).
  - intros id x Hx. destruct (fill_lookup _ _ _ _ _ Hfill Hx) as [He|Hex]; [|done].
    by rewrite lookup_empty in He.
Qed.

Lemma unpackMapping_entries_witness :
  (forall k v, (k, v) ∈ [("0x00", JString "chat")] ->
     exists id, mustAtoi k = Ok id /\ is_Some (Serverbound play_tables !! id)) /\
  (forall id x, Serverbound play_tables !! id = Some x ->
     exists k name, (k, JString name) ∈ [("0x00", JString "chat")] /\
                    mustAtoi k = Ok id /\ x = ToCamel name).
Proof.
  apply (unpackMapping_entries play_fixture "play" play_tables "toServer").
  - reflexivity.
  - unfold direction_tables. set_solver.
  - walk_document.
Defined.

(** X8: when several keys of a mappings object denote the same ID, the
    entry of the table is the name under the key that [range] visits last. *)
Theorem unpackMapping_last_key_wins (data : object) (gameState : string)
    (m : duplexMappings) (direction : string) (table : gmap Z string)
    (pre post : object) (k name : string) (id : Z) :
  unpackMapping data gameState = Ok m ->
  (direction, table) ∈ direction_tables m ->
  mappings_of data gameState direction (pre ++ (k, JString name) :: post) ->
  mustAtoi k = Ok id ->
  (forall k' v', (k', v') ∈ post -> mustAtoi k' <> Ok id) ->
  table !! id = Some (ToCamel name).
Proof.
  intros Hm Hin Hmp Hk Hpost.
  pose proof (table_of_mappings _ _ _ _ _ _ Hm Hin Hmp) as Hfill.
  now apply (fill_last _ _ _ _ _ _ _ Hfill).
Qed.

Lemma unpackMapping_last_key_wins_witness :
  exists m, unpackMapping twice_zero_doc "play" = Ok m /\
            Clientbound m !! 0 = Some "SpawnMob".
Proof.
  eexists. split; [vm_compute; reflexivity|].
  eapply (unpackMapping_last_key_wins twice_zero_doc "play" _ "toClient" _
            [("0", JString "spawn_entity")] [] "0x0" "spawn_mob" 0).
  - vm_compute. reflexivity.
  - unfold direction_tables. apply list_elem_of_here.
  - walk_document.
  - reflexivity.
  - intros k' v' Hin. by apply not_elem_of_nil in Hin.
Defined.

End ExtractorMore.

(** ** Properties of downloadInfo *)

Module DownloadMore.

Import Disambiguator DisambiguatorFacts Strconv Strcase Extractor ExtractorFacts.
Import Fixtures Coverage.

(** unpackMapping reads the document only under the key of the state. *)
Lemma unpackMapping_reads_state (data data' : object) (gameState : string) :
  get gameState data = get gameState data' ->
  unpackMapping data gameState = unpackMapping data' gameState.
Proof.
  intros Hget. unfold unpackMapping, unpackDirection. simpl. now rewrite Hget.
Qed.

Lemma unpackMapping_Err (data : object) (gameState : string) (e : error) :
  unpackMapping data gameState = Err e ->
  exists direction, direction ∈ ["toClient"; "toServer"] /\
    path_error data [gameState; direction; "types"] e.
Proof.
  unfold unpackMapping. intros Hm.
  destruct (unpackDirection data gameState "toClient") as [c|e'|] eqn:Hc;
    simpl in Hm; [|injection Hm as ->|done].
  - destruct (unpackDirection data gameState "toServer") as [s|e'|] eqn:Hs;
      simpl in Hm; [done|injection Hm as ->|done].
    exists "toServer". split; [set_solver | by apply unpackDirection_Err].
  - exists "toClient". split; [set_solver | by apply unpackDirection_Err].
Qed.

(** The three calls of unpackMapping decide the outcome of downloadInfo. *)
Lemma downloadInfo_cases (visit : visits) (data : object) :
  downloadInfo visit data =
    match unpackMapping data "login" with
    | Err e => Err (Labelled "login" e)
    | Panic p => Panic p
    | Ok login =>
        match unpackMapping data "play" with
        | Err e => Err (Labelled "play" e)
        | Panic p => Panic p
        | Ok play =>
            match unpackMapping data "status" with
            | Err e => Err (Labelled "play" e)
            | Panic p => Panic p
            | Ok status =>
                Ok {| Login := disambiguate visit "login" login;
                      Play := disambiguate visit "play" play;
                      Status := disambiguate visit "status" status |}
            end
        end
    end.
Proof. reflexivity. Qed.

Lemma default_visits_valid (data : object) : valid_visits (default_visits data) data.
Proof.
  intros state m _ Hm. unfold default_visits. rewrite Hm.
  split; apply range_order_default.
Qed.

Lemma disambiguate_runs (visit : visits) (data : object) (state : string)
    (m : duplexMappings) :
  valid_visits visit data -> state ∈ states -> unpackMapping data state = Ok m ->
  runs_to m (disambiguate visit state m).
Proof.
  intros Hv Hs Hm. destruct (Hv _ _ Hs Hm) as [Hc Hsv].
  by exists (visit state ToClient), (visit state ToServer).
Qed.

Lemma downloadInfo_Err (visit : visits) (data : object) (e : error) :
  downloadInfo visit data = Err e ->
  exists label state direction inner,
    e = Labelled label inner /\
    (state, label) ∈ [("login", "login"); ("play", "play"); ("status", "play")] /\
    direction ∈ ["toClient"; "toServer"] /\
    path_error data [state; direction; "types"] inner.
Proof.
  rewrite downloadInfo_cases. intros He.
  destruct (unpackMapping data "login") as [login|e1|] eqn:Hl;
    [|injection He as <-|done].
  - destruct (unpackMapping data "play") as [play|e2|] eqn:Hp;
      [|injection He as <-|done].
    + destruct (unpackMapping data "status") as [status|e3|] eqn:Hs;
        [done|injection He as <-|done].
      destruct (unpackMapping_Err _ _ _ Hs) as (d & Hd & Hpath).
      exists "play", "status", d, e3. split; [done|]. split; [set_solver | done].
    + destruct (unpackMapping_Err _ _ _ Hp) as (d & Hd & Hpath).
      exists "play", "play", d, e2. split; [done|]. split; [set_solver | done].
  - destruct (unpackMapping_Err _ _ _ Hl) as (d & Hd & Hpath).
    exists "login", "login", d, e1. split; [done|]. split; [set_solver | done].
Qed.

(** X9: every error that downloadInfo returns is the error of http.Get as
    it is, the error of the JSON decoder as it is, or, the document being
    decoded, an error of unnest on the path of one of the three states and
    one of the two directions, under the label "login" when the state is
    "login" and under the label "play" when the state is "play" or
    "status". *)
Theorem downloadInfo_errors (visit : visits) (r : response) (e : download_error) :
  downloadInfo_whole visit r = Failed e ->
  (exists err, r = GetFailed err /\ e = FromGet err) \/
  (exists err, r = DecodeFailed err /\ e = FromDecode err) \/
  (exists data label state direction inner,
     r = Decoded data /\
     e = FromExtraction (Labelled label inner) /\
     (state, label) ∈ [("login", "login"); ("play", "play"); ("status", "play")] /\
     direction ∈ ["toClient"; "toServer"] /\
     path_error data [state; direction; "types"] inner).
Proof.
  destruct r as [err|err|data]; simpl; intros He.
  - left. exists err. split; [done | congruence].
  - right. left. exists err. split; [done | congruence].
  - right. right.
    destruct (downloadInfo visit data) as [ids|e'|p] eqn:Hd; try discriminate.
    injection He as <-.
    destruct (downloadInfo_Err _ _ _ Hd) as (label & state & d & inner & -> & Hrest).
    by exists data, label, state, d, inner.
Qed.

Lemma downloadInfo_errors_witness :
  (exists err, Decoded broken_status_doc = GetFailed err /\
     FromExtraction (Labelled "play" (NotFound "toClient")) = FromGet err) \/
  (exists err, Decoded broken_status_doc = DecodeFailed err /\
     FromExtraction (Labelled "play" (NotFound "toClient")) = FromDecode err) \/
  (exists data label state direction inner,
     Decoded broken_status_doc = Decoded data /\
     FromExtraction (Labelled "play" (NotFound "toClient"))
       = FromExtraction (Labelled label inner) /\
     (state, label) ∈ [("login", "login"); ("play", "play"); ("status", "play")] /\
     direction ∈ ["toClient"; "toServer"] /\
     path_error data [state; direction; "types"] inner).
Proof.
  apply (downloadInfo_errors (fun _ _ => []) (Decoded broken_status_doc)).
  reflexivity.
Defined.

(** X11: downloadInfo reads the document only under the keys "login",
    "play" and "status": two documents with the same values under these
    three keys give the same outcome, whatever else they hold. *)
Theorem downloadInfo_reads_three_states (visit : visits) (data data' : object) :
  (forall state, state ∈ states -> get state data = get state data') ->
  downloadInfo visit data = downloadInfo visit data'.
Proof.
  intros Hget. rewrite !downloadInfo_cases.
  rewrite (unpackMapping_reads_state data data' "login")
    by (apply Hget; unfold states; set_solver).
  rewrite (unpackMapping_reads_state data data' "play")
    by (apply Hget; unfold states; set_solver).
  rewrite (unpackMapping_reads_state data data' "status")
    by (apply Hget; unfold states; set_solver).
  reflexivity.
Qed.

Lemma downloadInfo_reads_three_states_witness :
  downloadInfo (default_visits full_doc) full_doc
  = downloadInfo (default_visits full_doc) three_states_doc.
Proof.
  apply (downloadInfo_reads_three_states _ full_doc three_states_doc).
  intros state Hs. unfold states in Hs.
  apply elem_of_cons in Hs as [->|Hs]; [reflexivity|].
  apply elem_of_cons in Hs as [->|Hs]; [reflexivity|].
  apply list_elem_of_singleton in Hs as ->. reflexivity.
Defined.

(** X12: when downloadInfo succeeds, under visiting orders of the extracted
    tables, the tables it returns for each of the three states are a result
    of EnsureUniqueNames on the tables that unpackMapping extracts for the
    state: they have the same IDs in each direction and, when the extracted
    tables are [suffix_free], no name in both directions. *)
Theorem downloadInfo_success (visit : visits) (data : object) (ids : protocolIDs)
    (state : string) (out : duplexMappings) :
  valid_visits visit data ->
  downloadInfo visit data = Ok ids ->
  (state, out) ∈ state_tables ids ->
  exists m, unpackMapping data state = Ok m /\
    runs_to m out /\
    dom (Clientbound out) = dom (Clientbound m) /\
    dom (Serverbound out) = dom (Serverbound m) /\
    (suffix_free m -> no_shared_name out).
Proof.
  intros Hv Hids Hin. rewrite downloadInfo_cases in Hids.
  destruct (unpackMapping data "login") as [login| |] eqn:Hl; [|done..].
  destruct (unpackMapping data "play") as [play| |] eqn:Hp; [|done..].
  destruct (unpackMapping data "status") as [status| |] eqn:Hs; [|done..].
  injection Hids as <-. unfold state_tables in Hin. simpl in Hin.
  assert (exists m, unpackMapping data state = Ok m /\
                    out = disambiguate visit state m /\ state ∈ states)
    as (m & Hm & -> & Hst).
  { unfold states.
    apply elem_of_cons in Hin as [[= -> ->]|Hin]; [exists login; set_solver|].
    apply elem_of_cons in Hin as [[= -> ->]|Hin]; [exists play; set_solver|].
    apply list_elem_of_singleton in Hin as [= -> ->]. exists status. set_solver. }
  pose proof (disambiguate_runs _ _ _ _ Hv Hst Hm) as Hrun.
  exists m. split; [done|]. split; [done|].
  destruct (run_dom _ _ Hrun) as [Hdc Hds].
  split; [done|]. split; [done|].
  intros Hfree. now apply (run_separates m).
Qed.

Lemma downloadInfo_success_witness :
  exists m, unpackMapping full_doc "play" = Ok m /\
    runs_to m (Play full_ids) /\
    dom (Clientbound (Play full_ids)) = dom (Clientbound m) /\
    dom (Serverbound (Play full_ids)) = dom (Serverbound m) /\
    (suffix_free m -> no_shared_name (Play full_ids)).
Proof.
  apply (downloadInfo_success (default_visits full_doc) full_doc full_ids).
  - apply default_visits_valid.
  - vm_compute. reflexivity.
  - unfold state_tables. set_solver.
Defined.

End DownloadMore.

(** ** The IDs in the generated file *)

Module RenderMore.

Import Strconv StrconvFacts Extractor ExtractorFacts Render.

Lemma digit_of_hex_digit (d : Z) :
  0 <= d < 16 -> digit_of (hex_digit d) = Some d.
Proof.
  intros Hd.
  assert (d = 0 \/ d = 1 \/ d = 2 \/ d = 3 \/ d = 4 \/ d = 5 \/ d = 6 \/ d = 7 \/
          d = 8 \/ d = 9 \/ d = 10 \/ d = 11 \/ d = 12 \/ d = 13 \/ d = 14 \/
          d = 15) as Hcases by lia.
  repeat (destruct Hcases as [->|Hcases]; [reflexivity|]). now subst d.
Qed.

(** Read in base 16, the digits that the loop writes denote its argument. *)
Lemma numeral_hex_loop (fuel : nat) (u : Z) (buf : string) :
  0 <= u < 16 ^ Z.of_nat fuel ->
  numeral 16 (hex_loop fuel u buf) 0 = numeral 16 buf u.
Proof.
  revert u buf. induction fuel as [|fuel IH]; intros u buf Hu.
  - simpl in Hu. assert (u = 0) as -> by lia. reflexivity.
  - cbn [hex_loop]. destruct (Z.leb_spec 16 u) as [Hbig|Hsmall].
    + rewrite IH.
      * cbn [numeral]. change 15 with (Z.ones 4). rewrite Z.land_ones by lia.
        rewrite digit_of_hex_digit by (apply Z.mod_pos_bound; lia).
        destruct (Z.ltb_spec (u mod 2 ^ 4) 16) as [_|Hge];
          [|pose proof (Z.mod_pos_bound u (2 ^ 4)); lia].
        f_equal. rewrite Z.shiftr_div_pow2 by lia.
        change (2 ^ 4) with 16. pose proof (Z.div_mod u 16). lia.
      * rewrite Z.shiftr_div_pow2 by lia. change (2 ^ 4) with 16.
        rewrite Nat2Z.inj_succ, Z.pow_succ_r in Hu by lia.
        split; [apply Z.div_pos; lia|]. apply Z.div_lt_upper_bound; lia.
    + cbn [numeral]. rewrite digit_of_hex_digit by lia.
      destruct (Z.ltb_spec u 16); [|lia]. f_equal.
Qed.

Lemma hex_loop_nonempty (fuel : nat) (u : Z) (buf : string) :
  (fuel <> 0)%nat \/ buf <> EmptyString -> hex_loop fuel u buf <> EmptyString.
Proof.
  revert u buf. induction fuel as [|fuel IH]; intros u buf Hne; simpl.
  - destruct Hne as [Hne|Hne]; done.
  - destruct (16 <=? u); [|done]. apply IH. by right.
Qed.

(** X13: the hexadecimal text that the template writes for an ID is a key
    that mustAtoi parses back to the same ID, for every int32: the generated
    constants have the values of the packet IDs that were read. *)
Theorem mustAtoi_format_hex (id : Z) :
  - 2 ^ 31 <= id < 2 ^ 31 -> mustAtoi (format_hex id) = Ok id.
Proof.
  intros Hid. unfold format_hex.
  destruct (Z.ltb_spec id 0) as [Hneg|Hpos].
  - assert (wrap_uint64 (- wrap_uint64 id) = - id) as ->.
    { unfold wrap_uint64.
      assert (id mod 2 ^ 64 = id + 2 ^ 64) as ->
        by (symmetry; apply (Z.mod_unique_pos id (2 ^ 64) (-1)); lia).
      symmetry. apply (Z.mod_unique_pos _ (2 ^ 64) (-1)); lia. }
    pose proof (hex_loop_nonempty 16 (- id) EmptyString) as Hne.
    destruct (hex_loop 16 (- id) EmptyString) as [|c rest] eqn:Hloop;
      [exfalso; apply Hne; [by left | reflexivity]|].
    rewrite (mustAtoi_negative _ (String c rest) 16 (- id));
      [|discriminate|by apply base_prefix_hex|lia|].
    + destruct (Z.leb_spec (- id) (2 ^ 31)); [|lia]. f_equal. lia.
    + rewrite <- Hloop. rewrite numeral_hex_loop; [reflexivity|].
      change (16 ^ Z.of_nat 16) with (2 ^ 64). lia.
  - assert (wrap_uint64 id = id) as -> by (apply Z.mod_small; lia).
    rewrite (mustAtoi_hexadecimal "x" _ id).
    + destruct (Z.ltb_spec id (2 ^ 31)); [done | lia].
    + reflexivity.
    + apply hex_loop_nonempty. left. done.
    + rewrite numeral_hex_loop; [reflexivity|].
      change (16 ^ Z.of_nat 16) with (2 ^ 64). lia.
Qed.

Lemma mustAtoi_format_hex_witness :
  mustAtoi (format_hex (-2147483648)) = Ok (-2147483648).
Proof. apply (mustAtoi_format_hex (-2147483648)). lia. Defined.

End RenderMore.
